(** * thirdroom: render-thread renderable table, audio-data loading and
      the reliable network channel

    A shallow embedding of
    - [src/engine/renderer/renderer.render.ts]: the renderable message queue
      and the handlers [onAddRenderable], [onRemoveRenderable],
      [onSetActiveCamera], [onSetActiveScene], the drain loop
      [processRenderableMessages] and the head of the frame [onUpdate];
    - [src/engine/audio/audio.main.ts]: [updateAudioDatas] and the
      [then]/[catch] chain it attaches to every load;
    - the receiver rule of the reliable-ordered channel, which is not part of
      the sources at hand and is modelled from the specification.

    JavaScript arrays are lists, [Map]s are [gmap]s, objects with identity are
    numbered, promise callbacks are an explicit list of pending
    continuations, and a thrown exception is a [Throw] completion. *)

From stdpp Require Import base option list gmap strings.
From Stdlib Require Import Ascii.

Set Default Proof Using "Type".

(** ** JavaScript built-ins used by the code *)
Module JS.

(** [Array.prototype.splice(start, deleteCount, ...items)] for non-negative
    integer arguments: [start] is clamped to the length, [deleteCount] to
    what is left after [start]. Returns the removed elements and the array
    after the call. *)
Definition splice {A : Type} (start deleteCount : nat) (items : list A)
    (arr : list A) : list A * list A :=
  let actualStart := start `min` length arr in
  let actualDeleteCount := deleteCount `min` (length arr - actualStart) in
  (take actualDeleteCount (drop actualStart arr),
   take actualStart arr ++ items ++ drop (actualStart + actualDeleteCount) arr).
#[global] Arguments splice : simpl never.

(** The errors the modelled code can raise. *)
Inductive Error :=
  | TypeError.   (* property access on [undefined] *)

(** Outcome of running a piece of code on a mutable state: the state is
    kept in both cases, since mutations made before a [throw] persist. *)
Inductive Completion (S : Type) :=
  | Normal (st : S)
  | Throw (e : Error) (st : S).
Arguments Normal {S} st.
Arguments Throw {S} e st.

Definition stateOf {S : Type} (c : Completion S) : S :=
  match c with Normal st => st | Throw _ st => st end.

End JS.

(** ** The part of three.js [Object3D] the renderer calls *)
Module Three.

(** Identity of an [Object3D] (scene, camera, mesh, ...). *)
Definition Obj := nat.

(** The object graph: every object's [children] array and [parent] link. *)
Record Graph := mkGraph {
  children : gmap Obj (list Obj);
  parent : gmap Obj Obj;
}.

Definition emptyGraph : Graph := mkGraph ∅ ∅.

Definition childrenOf (g : Graph) (o : Obj) : list Obj :=
  default [] (children g !! o).

(** [arr.splice(arr.indexOf(o), 1)] when [o] occurs in [arr]. *)
Fixpoint removeFirst (o : Obj) (arr : list Obj) : list Obj :=
  match arr with
  | [] => []
  | x :: rest => if decide (x = o) then rest else x :: removeFirst o rest
  end.

(** [self.remove(o)]: when [o] is among the children, unlink it. *)
Definition remove (self o : Obj) (g : Graph) : Graph :=
  if decide (o ∈ childrenOf g self) then
    mkGraph (<[self := removeFirst o (childrenOf g self)]> (children g))
            (delete o (parent g))
  else g.

(** [self.add(o)]: refuses [o === self]; otherwise detaches [o] from its
    current parent and pushes it onto [self.children]. *)
Definition add (self o : Obj) (g : Graph) : Graph :=
  if decide (o = self) then g
  else
    let g1 := match parent g !! o with
              | Some p => remove p o g
              | None => g
              end in
    mkGraph (<[self := childrenOf g1 self ++ [o]]> (children g1))
            (<[o := self]> (parent g1)).

(** The graphs three.js builds: no object occurs twice among the children
    of another, and the parent link of every child names the object that
    lists it. *)
Definition linked (g : Graph) : Prop :=
  (∀ p, NoDup (childrenOf g p))
  ∧ (∀ p o, o ∈ childrenOf g p → parent g !! o = Some p).

End Three.

(** ** renderer.render.ts *)
Module Renderer.
Import JS.
Export Three.

Definition Eid := nat.
Definition ResourceId := nat.

(** Modelled from the spec: [ResourceState] and [ResourceInfo] are declared
    in [../resources/ResourceManager], which is not among the sources. A
    resource is loading, loaded (with its payload attached) or failed (with
    an error cause attached). *)
Inductive ResourceState := Loading | Loaded | Error.

Inductive ResourceInfo :=
  | InfoLoading
  | InfoLoaded (resource : Obj)
  | InfoError (error : string).

Definition state (info : ResourceInfo) : ResourceState :=
  match info with
  | InfoLoading => Loading
  | InfoLoaded _ => Loaded
  | InfoError _ => Error
  end.

Definition resource (info : ResourceInfo) : option Obj :=
  match info with InfoLoaded o => Some o | _ => None end.

Definition error (info : ResourceInfo) : option string :=
  match info with InfoError e => Some e | _ => None end.

(** [interface Renderable] *)
Record Renderable := mkRenderable {
  object : option Obj;
  helper : option Obj;
  eid : Eid;
  resourceId : ResourceId;
}.

(** Modelled from the spec: the render-context messages, declared in
    [../WorkerMessage], which is not among the sources, with the fields the
    handlers destructure. *)
Inductive RenderableMessages :=
  | AddRenderable (resourceId : ResourceId) (eid : Eid)
  | RemoveRenderable (eid : Eid)
  | SetActiveCamera (eid : Eid)
  | SetActiveScene (eid : Eid) (resourceId : ResourceId).

(** Callbacks attached to a resource's load promise. *)
Inductive Continuation :=
  | Requeue (resourceId : ResourceId) (eid : Eid)
      (* the [finally] callback of [onAddRenderable], closed over its message *)
  | SetScene.
      (* the [then] callback of [onSetActiveScene] *)

(** What the render thread does to the outside, in order. *)
Inductive Effect :=
  | WarnUnknownResource (resourceId : ResourceId) (eid : Eid)
  | WarnCouldNotLoad (resourceId : ResourceId) (eid : Eid) (error : option string)
  | ErrorUnknownScene (resourceId : ResourceId) (eid : Eid)
  | UncaughtInPromise (e : JS.Error)
  | SwapReadBuffer
  | Render (scene camera : Obj).

(** [RendererModuleState] (the fields the handlers touch), together with
    the three.js object graph, the callbacks pending on load promises and
    the trace of effects. *)
Record RenderThreadState := mkState {
  scene : Obj;
  camera : Obj;
  store : gmap ResourceId ResourceInfo;         (* resourceManager.store *)
  renderableMessageQueue : list RenderableMessages;
  renderables : list Renderable;
  objectToEntityMap : gmap Obj Eid;
  renderableIndices : gmap Eid nat;
  graph : Graph;
  promiseCallbacks : list (ResourceId * Continuation);
  effects : list Effect;
}.

Section Setters.
Variable st : RenderThreadState.

Definition set_scene (v : Obj) : RenderThreadState :=
  mkState v (camera st) (store st) (renderableMessageQueue st)
    (renderables st) (objectToEntityMap st) (renderableIndices st)
    (graph st) (promiseCallbacks st) (effects st).
Definition set_camera (v : Obj) : RenderThreadState :=
  mkState (scene st) v (store st) (renderableMessageQueue st)
    (renderables st) (objectToEntityMap st) (renderableIndices st)
    (graph st) (promiseCallbacks st) (effects st).
Definition set_store (v : gmap ResourceId ResourceInfo) : RenderThreadState :=
  mkState (scene st) (camera st) v (renderableMessageQueue st)
    (renderables st) (objectToEntityMap st) (renderableIndices st)
    (graph st) (promiseCallbacks st) (effects st).
Definition set_renderableMessageQueue (v : list RenderableMessages)
    : RenderThreadState :=
  mkState (scene st) (camera st) (store st) v
    (renderables st) (objectToEntityMap st) (renderableIndices st)
    (graph st) (promiseCallbacks st) (effects st).
Definition set_renderables (v : list Renderable) : RenderThreadState :=
  mkState (scene st) (camera st) (store st) (renderableMessageQueue st)
    v (objectToEntityMap st) (renderableIndices st)
    (graph st) (promiseCallbacks st) (effects st).
Definition set_objectToEntityMap (v : gmap Obj Eid) : RenderThreadState :=
  mkState (scene st) (camera st) (store st) (renderableMessageQueue st)
    (renderables st) v (renderableIndices st)
    (graph st) (promiseCallbacks st) (effects st).
Definition set_renderableIndices (v : gmap Eid nat) : RenderThreadState :=
  mkState (scene st) (camera st) (store st) (renderableMessageQueue st)
    (renderables st) (objectToEntityMap st) v
    (graph st) (promiseCallbacks st) (effects st).
Definition set_graph (v : Graph) : RenderThreadState :=
  mkState (scene st) (camera st) (store st) (renderableMessageQueue st)
    (renderables st) (objectToEntityMap st) (renderableIndices st)
    v (promiseCallbacks st) (effects st).
Definition set_promiseCallbacks (v : list (ResourceId * Continuation))
    : RenderThreadState :=
  mkState (scene st) (camera st) (store st) (renderableMessageQueue st)
    (renderables st) (objectToEntityMap st) (renderableIndices st)
    (graph st) v (effects st).
Definition set_effects (v : list Effect) : RenderThreadState :=
  mkState (scene st) (camera st) (store st) (renderableMessageQueue st)
    (renderables st) (objectToEntityMap st) (renderableIndices st)
    (graph st) (promiseCallbacks st) v.
End Setters.

(** [scene.add(o)], [scene.remove(o)] on the current scene, [console.*],
    [arr.push(x)] and [promise.then/finally(cb)]. *)
Definition sceneAdd (o : Obj) (st : RenderThreadState) : RenderThreadState :=
  set_graph st (add (scene st) o (graph st)).
Definition sceneRemove (o : Obj) (st : RenderThreadState) : RenderThreadState :=
  set_graph st (remove (scene st) o (graph st)).
Definition emit (e : Effect) (st : RenderThreadState) : RenderThreadState :=
  set_effects st (effects st ++ [e]).
Definition enqueue (m : RenderableMessages) (st : RenderThreadState)
    : RenderThreadState :=
  set_renderableMessageQueue st (renderableMessageQueue st ++ [m]).
Definition attach (rid : ResourceId) (k : Continuation)
    (st : RenderThreadState) : RenderThreadState :=
  set_promiseCallbacks st (promiseCallbacks st ++ [(rid, k)]).

(** [if (removed.length > 0 && removed[0].object) scene.remove(removed[0].object)] *)
Definition removeDisplaced (removed : list Renderable)
    (st : RenderThreadState) : RenderThreadState :=
  match removed with
  | r :: _ =>
      match object r with
      | Some o => sceneRemove o st
      | None => st
      end
  | [] => st
  end.

(** [export function onRenderableMessage(state, message)] *)
Definition onRenderableMessage (st : RenderThreadState)
    (message : RenderableMessages) : RenderThreadState :=
  enqueue message st.

(** [export function onAddRenderable(state, message)] with
    [message = { resourceId, eid }]. *)
Definition onAddRenderable (st : RenderThreadState)
    (resourceId : ResourceId) (eid : Eid) : RenderThreadState :=
  let renderableIndex := renderableIndices st !! eid in
  match store st !! resourceId with
  | None => emit (WarnUnknownResource resourceId eid) st
  | Some resourceInfo =>
      match resourceInfo with
      | InfoLoaded object =>
          let entry := mkRenderable (Some object) None eid resourceId in
          let st1 :=
            match renderableIndex with
            | Some i =>
                let '(removed, arr) := splice i 1 [entry] (renderables st) in
                removeDisplaced removed (set_renderables st arr)
            | None =>
                let st' :=
                  set_renderableIndices st
                    (<[eid := length (renderables st)]> (renderableIndices st)) in
                let st'' := set_renderables st' (renderables st' ++ [entry]) in
                set_objectToEntityMap st''
                  (<[object := eid]> (objectToEntityMap st''))
            end in
          sceneAdd object st1
      | InfoLoading =>
          let entry := mkRenderable None None eid resourceId in
          let st1 :=
            match renderableIndex with
            | Some i =>
                let '(removed, arr) := splice i 1 [entry] (renderables st) in
                removeDisplaced removed (set_renderables st arr)
            | None =>
                let st' :=
                  set_renderableIndices st
                    (<[eid := length (renderables st)]> (renderableIndices st)) in
                set_renderables st' (renderables st' ++ [entry])
            end in
          attach resourceId (Requeue resourceId eid) st1
      | InfoError _ =>
          emit (WarnCouldNotLoad resourceId eid (error resourceInfo)) st
      end
  end.

(** The callback given to [resourceInfo.promise.finally] in
    [onAddRenderable]: [renderables[index].resourceId] raises a TypeError
    when [renderables[index]] is [undefined]. *)
Definition requeueWhenLoaded (resourceId : ResourceId) (eid : Eid)
    (st : RenderThreadState) : Completion RenderThreadState :=
  match renderableIndices st !! eid with
  | None => Normal st
  | Some index =>
      match renderables st !! index with
      | None => Throw TypeError st
      | Some r =>
          if decide (Renderer.resourceId r ≠ resourceId) then Normal st
          else Normal (enqueue (AddRenderable resourceId eid) st)
      end
  end.

(** [export function onRemoveRenderable(state, { eid })] *)
Definition onRemoveRenderable (st : RenderThreadState) (eid : Eid)
    : RenderThreadState :=
  match renderableIndices st !! eid with
  | Some index =>
      let '(removed, arr) := splice index 1 [] (renderables st) in
      let st1 := set_renderables st arr in
      let st2 := set_renderableIndices st1 (delete eid (renderableIndices st1)) in
      match removed with
      | r :: _ =>
          let st3 :=
            match object r with
            | Some o =>
                let s := sceneRemove o st2 in
                set_objectToEntityMap s (delete o (objectToEntityMap s))
            | None => st2
            end in
          match helper r with
          | Some h =>
              let s := sceneRemove h st3 in
              set_objectToEntityMap s (delete h (objectToEntityMap s))
          | None => st3
          end
      | [] => st2
      end
  | None => st
  end.

(** The loop of [setScene]: [for (const child of rendererState.scene.children)
    newScene.add(child)]. The array iterator reads [children[i]] of the live
    array at every step, while [add] may take the child out of that very
    array. [n] bounds the number of steps. *)
Fixpoint adoptChildren (n i : nat) (oldScene newScene : Obj) (g : Graph)
    : Graph :=
  match n with
  | 0 => g
  | S n' =>
      match childrenOf g oldScene !! i with
      | None => g
      | Some child => adoptChildren n' (S i) oldScene newScene (add newScene child g)
      end
  end.

(** [const setScene = (newScene) => { ...; rendererState.scene = newScene }].
    In a graph whose parent links agree with the children arrays the
    children array of the old scene never grows during the loop, so its
    initial length bounds the number of steps. *)
Definition setScene (newScene : Obj) (st : RenderThreadState)
    : RenderThreadState :=
  let n := length (childrenOf (graph st) (scene st)) in
  set_scene
    (set_graph st (adoptChildren n 0 (scene st) newScene (graph st)))
    newScene.

(** [export function onSetActiveScene(state, { eid, resourceId })] *)
Definition onSetActiveScene (st : RenderThreadState) (eid : Eid)
    (resourceId : ResourceId) : RenderThreadState :=
  match store st !! resourceId with
  | None => emit (ErrorUnknownScene resourceId eid) st
  | Some resourceInfo =>
      match resource resourceInfo with
      | Some newScene => setScene newScene st
      | None => attach resourceId SetScene st
      end
  end.

(** [export function onSetActiveCamera(state, { eid })]. Reading
    [isPerspectiveCamera] off an entry without object raises a TypeError
    before anything is assigned; the projection update itself is
    floating-point work on the camera and leaves this state alone. *)
Definition onSetActiveCamera (st : RenderThreadState) (eid : Eid)
    : Completion RenderThreadState :=
  match renderableIndices st !! eid with
  | Some index =>
      match renderables st !! index with
      | Some r =>
          match object r with
          | Some cam => Normal (set_camera st cam)
          | None => Throw TypeError st
          end
      | None => Normal st
      end
  | None => Normal st
  end.

(** The [switch (message.type)] of [processRenderableMessages]. *)
Definition dispatch (st : RenderThreadState) (message : RenderableMessages)
    : Completion RenderThreadState :=
  match message with
  | AddRenderable resourceId eid => Normal (onAddRenderable st resourceId eid)
  | RemoveRenderable eid => Normal (onRemoveRenderable st eid)
  | SetActiveCamera eid => onSetActiveCamera st eid
  | SetActiveScene eid resourceId => Normal (onSetActiveScene st eid resourceId)
  end.

(** [export function processRenderableMessages(state)]:
    [while (queue.length) { message = queue.shift(); switch ... }].
    [fuel] bounds the number of iterations; [None] means it ran out. *)
Fixpoint processRenderableMessages (fuel : nat) (st : RenderThreadState)
    : option (Completion RenderThreadState) :=
  match renderableMessageQueue st with
  | [] => Some (Normal st)
  | message :: rest =>
      match fuel with
      | 0 => None
      | S fuel' =>
          match dispatch (set_renderableMessageQueue st rest) message with
          | Normal st' => processRenderableMessages fuel' st'
          | Throw e st' => Some (Throw e st')
          end
      end
  end.

(** [function onUpdate(state)], as far as the queue is concerned: the
    module state is destructured first (so [scene] and [camera] are those of
    the frame's start), then the queue is drained, then the read buffer is
    swapped and the scene rendered. The per-object transform copy between
    the two is floating-point work on three.js objects and is left out. *)
Definition onUpdate (fuel : nat) (st : RenderThreadState)
    : option (Completion RenderThreadState) :=
  let scene0 := scene st in
  let camera0 := camera st in
  match processRenderableMessages fuel st with
  | None => None
  | Some (Throw e st') => Some (Throw e st')
  | Some (Normal st') =>
      Some (Normal (emit (Render scene0 camera0) (emit SwapReadBuffer st')))
  end.

(** Modelled from the spec: the resource manager's load task
    ([../resources/ResourceManager], not among the sources) moves a
    [Loading] resource to [Loaded], attaching the payload, or to [Error],
    attaching the cause, and then the callbacks attached to the promise run
    once each, in the order they were attached: [finally] callbacks on
    either outcome, [then] callbacks on success only. A callback that
    throws leaves an unhandled rejection behind. *)
Inductive LoadOutcome :=
  | LoadOk (resource : Obj)
  | LoadFailed (error : string).

Definition settledInfo (o : LoadOutcome) : ResourceInfo :=
  match o with
  | LoadOk r => InfoLoaded r
  | LoadFailed e => InfoError e
  end.

Definition runContinuation (o : LoadOutcome) (st : RenderThreadState)
    (k : Continuation) : RenderThreadState :=
  match k with
  | Requeue resourceId eid =>
      match requeueWhenLoaded resourceId eid st with
      | Normal st' => st'
      | Throw e st' => emit (UncaughtInPromise e) st'
      end
  | SetScene =>
      match o with
      | LoadOk r => setScene r st
      | LoadFailed _ => st
      end
  end.

Definition callbacksOf (rid : ResourceId)
    (cbs : list (ResourceId * Continuation)) : list Continuation :=
  snd <$> filter (λ p, fst p = rid) cbs.

Definition callbacksNotOf (rid : ResourceId)
    (cbs : list (ResourceId * Continuation)) : list (ResourceId * Continuation) :=
  filter (λ p, fst p ≠ rid) cbs.

Definition settleLoad (rid : ResourceId) (o : LoadOutcome)
    (st : RenderThreadState) : RenderThreadState :=
  match store st !! rid with
  | Some InfoLoading =>
      let st1 := set_store st (<[rid := settledInfo o]> (store st)) in
      let mine := callbacksOf rid (promiseCallbacks st1) in
      let st2 := set_promiseCallbacks st1
                   (callbacksNotOf rid (promiseCallbacks st1)) in
      foldl (runContinuation o) st2 mine
  | _ => st
  end.

(** The state [RendererModule.create] returns, over a given store. *)
Definition create (sceneObj cameraObj : Obj)
    (resources : gmap ResourceId ResourceInfo) : RenderThreadState :=
  mkState sceneObj cameraObj resources [] [] ∅ ∅ emptyGraph [] [].

(** Handling messages one after the other, outside the queue. *)
Definition handle (st : RenderThreadState) (message : RenderableMessages)
    : RenderThreadState :=
  stateOf (dispatch st message).

(** The entity table is consistent: every index recorded for an entity
    points into [renderables], at an entry of that entity. *)
Definition indicesConsistent (st : RenderThreadState) : Prop :=
  ∀ e i, renderableIndices st !! e = Some i →
    ∃ r, renderables st !! i = Some r ∧ eid r = e.

(** What the renderer holds for an entity, read through its index. *)
Definition renderableOf (st : RenderThreadState) (e : Eid) : option Renderable :=
  renderableIndices st !! e ≫= λ i, renderables st !! i.

(** The objects currently in the scene. *)
Definition sceneChildren (st : RenderThreadState) : list Obj :=
  childrenOf (graph st) (scene st).

(** Reference semantics of a drain: the messages handled one by one, in
    list order, until one of the handlers throws; returns the completion
    and the messages that were not reached. *)
Fixpoint runInOrder (st : RenderThreadState) (ms : list RenderableMessages)
    : Completion RenderThreadState * list RenderableMessages :=
  match ms with
  | [] => (Normal st, [])
  | m :: rest =>
      match dispatch st m with
      | Normal st' => runInOrder st' rest
      | Throw e st' => (Throw e st', rest)
      end
  end.

Definition withQueue (q : list RenderableMessages) (st : RenderThreadState)
    : RenderThreadState :=
  set_renderableMessageQueue st q.

Definition onState {S : Type} (f : S → S) (c : Completion S) : Completion S :=
  match c with
  | Normal st => Normal (f st)
  | Throw e st => Throw e (f st)
  end.

(** The frame that follows a drain which returned normally. *)
Definition finishFrame (scene0 camera0 : Obj) (st : RenderThreadState)
    : RenderThreadState :=
  emit (Render scene0 camera0) (emit SwapReadBuffer st).

End Renderer.

(** ** Concrete runs *)
Module Scenario.
Import JS Renderer.

(** Scene 100, camera 101; resources 1, 2, 3 loaded with objects 11, 12,
    13; resource 4 still loading. *)
Definition start : RenderThreadState :=
  create 100 101
    (list_to_map [(1, InfoLoaded 11); (2, InfoLoaded 12); (3, InfoLoaded 13);
                  (4, InfoLoading)]).

(** Two entities added, the first one removed. *)
Definition afterRemoval : RenderThreadState :=
  foldl handle start [AddRenderable 1 1; AddRenderable 2 2; RemoveRenderable 1].

(** Three entities added, the first one removed. *)
Definition afterRemovalOfThree : RenderThreadState :=
  foldl handle start
    [AddRenderable 1 1; AddRenderable 2 2; AddRenderable 3 3; RemoveRenderable 1].

(** Entity 2 gets a new, loaded resource after entity 1 was removed. *)
Definition replacedAfterRemoval : RenderThreadState :=
  handle afterRemoval (AddRenderable 3 2).

(** Three entities added, the first two removed, and the third one given
    the resource that is still loading. *)
Definition loadingAfterRemovals : RenderThreadState :=
  foldl handle start
    [AddRenderable 1 1; AddRenderable 2 2; AddRenderable 3 3;
     RemoveRenderable 1; RemoveRenderable 2; AddRenderable 4 3].

(** Entities 5 and 6 both ask for the loading resource 4; entity 5 is then
    given the loaded resource 2 instead, and entity 1, added first, is
    removed. *)
Definition supersededWhileLoading : RenderThreadState :=
  foldl handle start
    [AddRenderable 1 1; AddRenderable 4 5; AddRenderable 4 6;
     AddRenderable 2 5; RemoveRenderable 1].

(** Entity 3 is given the loading resource 4, made the active camera and
    removed, all within one frame's worth of messages. *)
Definition cameraWhileLoading : RenderThreadState :=
  foldl onRenderableMessage start
    [AddRenderable 4 3; SetActiveCamera 3; RemoveRenderable 3].

(** A frame with enough iterations for the queue at hand. *)
Definition frame (st : RenderThreadState) : option (Completion RenderThreadState) :=
  onUpdate (length (renderableMessageQueue st)) st.

End Scenario.

(** ** audio.main.ts: loading of audio data *)
Module Audio.

(** Modelled from the spec: [LoadStatus] is declared in
    [../resource/resource.common], which is not among the sources; its
    members are the five lifecycle states of a resource, under the names
    [updateAudioDatas] uses. *)
Inductive LoadStatus := Uninitialized | Loading | Loaded | Disposed | Error.

#[global] Instance LoadStatus_eq_dec : EqDecision LoadStatus.
Proof. solve_decision. Defined.

(** What [loadAudioData] resolves to: an [AudioBuffer], an
    [HTMLAudioElement] or a [MediaStream] (numbered), or [undefined]. *)
Inductive AudioPayload :=
  | AudioBuffer (n : nat)
  | HTMLAudioElement (n : nat)
  | MediaStream (n : nat).

Record AbortController := mkAbortController { aborted : bool }.

(** A rejection value, as far as the [catch] callback looks at it. *)
Record JsError := mkJsError { name : string }.

(** Modelled from the spec: [MainAudioData] is declared in
    [../resource/resource.main], which is not among the sources. These are
    the fields [updateAudioDatas] reads and writes, and the reference count
    every resource has. *)
Record MainAudioData := mkAudioData {
  loadStatus : LoadStatus;
  data : option AudioPayload;
  abortController : option AbortController;
  refCount : nat;
}.

Definition set_loadStatus (a : MainAudioData) (s : LoadStatus) : MainAudioData :=
  mkAudioData s (data a) (abortController a) (refCount a).
Definition set_data (a : MainAudioData) (d : option AudioPayload) : MainAudioData :=
  mkAudioData (loadStatus a) d (abortController a) (refCount a).
Definition set_abortController (a : MainAudioData) (c : option AbortController)
    : MainAudioData :=
  mkAudioData (loadStatus a) (data a) c (refCount a).
Definition set_refCount (a : MainAudioData) (n : nat) : MainAudioData :=
  mkAudioData (loadStatus a) (data a) (abortController a) n.

(** The main thread, as far as audio data goes: the resource objects by
    id, what [getLocalResources(ctx, MainAudioData)] returns, and the loads
    whose promise has not settled yet. *)
Record MainThread := mkMain {
  resources : gmap nat MainAudioData;
  localAudioDatas : list nat;
  loads : list nat;
}.

(** How a load ends. *)
Inductive LoadResult :=
  | Resolved (data : option AudioPayload)
  | Rejected (error : JsError).

(** Body of the [for] loop of [updateAudioDatas] for one resource. *)
Definition visitAudioData (w : MainThread) (id : nat) : MainThread :=
  match resources w !! id with
  | Some audioData =>
      if decide (loadStatus audioData = Uninitialized) then
        let a1 := set_abortController audioData (Some (mkAbortController false)) in
        let a2 := set_loadStatus a1 Loading in
        mkMain (<[id := a2]> (resources w)) (localAudioDatas w) (loads w ++ [id])
      else w
  | None => w
  end.

(** [function updateAudioDatas(ctx, audioModule)] *)
Definition updateAudioDatas (w : MainThread) : MainThread :=
  foldl visitAudioData w (localAudioDatas w).

(** The [.catch((error) => ...)] callback. *)
Definition onRejected (error : JsError) (audioData : MainAudioData)
    : MainAudioData :=
  if decide (name error = "AbortError") then audioData
  else set_loadStatus audioData Error.

(** The [.then((data) => ...)] callback; [inl] is what it throws. *)
Definition onResolved (d : option AudioPayload) (audioData : MainAudioData)
    : JsError + MainAudioData :=
  if decide (loadStatus audioData = Loaded) then inl (mkJsError "Error")
  else if decide (loadStatus audioData ≠ Disposed) then
    inr (set_loadStatus (set_data audioData d) Loaded)
  else inr audioData.

(** [load.then(...).catch(...)]: the [catch] also receives what the [then]
    callback throws. *)
Definition onSettled (r : LoadResult) (audioData : MainAudioData)
    : MainAudioData :=
  match r with
  | Resolved d =>
      match onResolved d audioData with
      | inr a => a
      | inl e => onRejected e audioData
      end
  | Rejected e => onRejected e audioData
  end.

(** The promise of a load in flight settles: its callbacks run on the
    resource object, and the load is over. *)
Definition settle (id : nat) (r : LoadResult) (w : MainThread) : MainThread :=
  if decide (id ∈ loads w) then
    match resources w !! id with
    | Some audioData =>
        mkMain (<[id := onSettled r audioData]> (resources w))
               (localAudioDatas w)
               (filter (λ j, j ≠ id) (loads w))
    | None => w
    end
  else w.

(** Modelled from the spec: [acquire] and [release] of the resource
    manager, whose code is not among the sources. [release] decrements the
    reference count; at zero a [Loaded] or [Loading] resource becomes
    [Disposed], the load of a [Loading] one is cancelled through its abort
    controller, and the resource leaves the list of local resources. *)
Definition acquire (id : nat) (w : MainThread) : MainThread :=
  match resources w !! id with
  | Some a =>
      mkMain (<[id := set_refCount a (S (refCount a))]> (resources w))
             (localAudioDatas w) (loads w)
  | None => w
  end.

Definition dispose (a : MainAudioData) : MainAudioData :=
  match loadStatus a with
  | Loading =>
      set_loadStatus
        (set_abortController a (const (mkAbortController true) <$> abortController a))
        Disposed
  | Loaded => set_loadStatus a Disposed
  | _ => a
  end.

Definition release (id : nat) (w : MainThread) : MainThread :=
  match resources w !! id with
  | Some a =>
      let a' := set_refCount a (refCount a - 1) in
      if decide (refCount a' = 0) then
        mkMain (<[id := dispose a']> (resources w))
               (filter (λ j, j ≠ id) (localAudioDatas w)) (loads w)
      else
        mkMain (<[id := a']> (resources w)) (localAudioDatas w) (loads w)
  | None => w
  end.

Definition statusOf (w : MainThread) (id : nat) : option LoadStatus :=
  loadStatus <$> resources w !! id.

Definition dataOf (w : MainThread) (id : nat) : option (option AudioPayload) :=
  data <$> resources w !! id.

(** A load fails when its promise rejects with anything but the abort
    raised by a cancellation. *)
Definition loadFails (r : LoadResult) : Prop :=
  match r with
  | Rejected e => name e ≠ "AbortError"
  | Resolved _ => False
  end.

End Audio.

Module AudioScenario.
Import Audio.

(** One audio resource, 7, just created: uninitialized, one reference. *)
Definition created : MainThread :=
  mkMain {[7 := mkAudioData Uninitialized None None 1]} [7] [].

(** The same after one run of the audio system: its load is in flight. *)
Definition loadingAudio : MainThread := updateAudioDatas created.

End AudioScenario.

(** ** The reliable-ordered channel *)
Module Network.

(** Modelled from the spec: the network receiver is not among the sources.
    A message carries its kind, the entity it is about, a sequence number
    and a channel tag; the receiver keeps, per entity, the sequence number
    it applied last and the state the applied messages produced. On the
    reliable-ordered channel a message is dropped unless its sequence
    number is greater than the last applied one of its entity; on the
    unreliable channel unless it is at least as new. *)
Inductive Channel := ReliableOrdered | Unreliable.

Inductive MessageKind :=
  | Create | Update | Delete | OwnershipTransfer | CustomAction.

Section Receiver.
Variable Payload : Type.
Variable EntityState : Type.
(** The state of an entity nothing was applied to yet, and the effect of
    applying one message. *)
Variable initial : EntityState.
Variable applyMessage : MessageKind → Payload → EntityState → EntityState.

Record NetworkMessage := mkMessage {
  kind : MessageKind;
  entityId : nat;
  sequence : nat;
  channel : Channel;
  payload : Payload;
}.

Record Applied := mkApplied {
  lastApplied : nat;
  entityState : EntityState;
}.

Definition accepts (m : NetworkMessage) (last : nat) : bool :=
  match channel m with
  | ReliableOrdered => bool_decide (last < sequence m)
  | Unreliable => bool_decide (last ≤ sequence m)
  end.

Definition receive (rcv : gmap nat Applied) (m : NetworkMessage)
    : gmap nat Applied :=
  match rcv !! entityId m with
  | Some a =>
      if accepts m (lastApplied a) then
        <[entityId m :=
            mkApplied (sequence m)
              (applyMessage (kind m) (payload m) (entityState a))]> rcv
      else rcv
  | None =>
      <[entityId m :=
          mkApplied (sequence m)
            (applyMessage (kind m) (payload m) initial)]> rcv
  end.

Definition deliver (rcv : gmap nat Applied) (ms : list NetworkMessage)
    : gmap nat Applied :=
  foldl receive rcv ms.

End Receiver.

Arguments kind {Payload}.
Arguments entityId {Payload}.
Arguments sequence {Payload}.
Arguments channel {Payload}.
Arguments payload {Payload}.
Arguments mkMessage {Payload}.
Arguments lastApplied {EntityState}.
Arguments entityState {EntityState}.
Arguments mkApplied {EntityState}.
Arguments accepts {Payload}.
Arguments receive {Payload EntityState}.
Arguments deliver {Payload EntityState}.

End Network.

(** ** renderer.render.ts: views used to state what the handlers do *)
Module RendererViews.
Import Renderer.

(** The warning [onAddRenderable] logs for a message it drops: one whose
    resource is not in the store, or whose resource failed to load. *)
Definition dropWarning (st : RenderThreadState) (m : RenderableMessages)
    : option Effect :=
  match m with
  | AddRenderable rid e =>
      match store st !! rid with
      | None => Some (WarnUnknownResource rid e)
      | Some (InfoError err) => Some (WarnCouldNotLoad rid e (Some err))
      | Some _ => None
      end
  | _ => None
  end.

(** The elements at positions 0, 2, 4, ... of a list. *)
Fixpoint everyOther {A : Type} (l : list A) : list A :=
  match l with
  | x :: _ :: rest => x :: everyOther rest
  | _ => l
  end.

End RendererViews.

(** ** renderer.render.ts: the staleness counters kept at the end of a frame *)
Module Stats.

(** Modelled from the spec: [StatsModule]'s state is declared in
    [../stats/stats.render], which is not among the sources; these are the
    two counters [onUpdate] keeps, telling how stale the reader's view of the
    triple buffer is. *)
Record StatsModuleState := mkStats {
  staleTripleBufferCounter : nat;
  staleFrameCounter : nat;
}.

(** The tail of [onUpdate]: [if (bufferSwapped) { if (counter > 1)
    staleFrameCounter++; counter = 0 } else { counter++ }], with
    [bufferSwapped] what [swapReadBuffer] returned for the frame. *)
Definition countStaleness (stats : StatsModuleState) (bufferSwapped : bool)
    : StatsModuleState :=
  if bufferSwapped then
    mkStats 0
      (if bool_decide (1 < staleTripleBufferCounter stats)
       then S (staleFrameCounter stats) else staleFrameCounter stats)
  else
    mkStats (S (staleTripleBufferCounter stats)) (staleFrameCounter stats).

(** The counters after a run of frames, given for each whether the read
    buffer was swapped. *)
Definition afterFrames (stats : StatsModuleState) (swaps : list bool)
    : StatsModuleState :=
  foldl countStaleness stats swaps.

End Stats.

(** ** audio.main.ts: the loads in flight *)
Module AudioViews.
Import Audio.

(** Every load in flight belongs to a resource that is [Loading], or was
    disposed while loading, and no resource has two. *)
Definition inFlightOk (w : MainThread) : Prop :=
  NoDup (loads w)
  ∧ ∀ id, id ∈ loads w →
      ∃ a, resources w !! id = Some a
           ∧ (loadStatus a = Loading ∨ loadStatus a = Disposed).

End AudioViews.

(** ** audio.main.ts: the MIME type of an audio file *)
Module AudioMime.

(** [str.split(sep)] for a one-character separator: the pieces between the
    separators, at least one. *)
Fixpoint split (sep : ascii) (s : string) : list string :=
  match s with
  | EmptyString => [EmptyString]
  | String c rest =>
      if Ascii.eqb c sep then EmptyString :: split sep rest
      else
        match split sep rest with
        | piece :: pieces => String c piece :: pieces
        | [] => [String c EmptyString]
        end
  end.

(** Whether a character occurs in a string. *)
Fixpoint hasChar (c : ascii) (s : string) : bool :=
  match s with
  | EmptyString => false
  | String c' rest => Ascii.eqb c' c || hasChar c rest
  end.

(** [const audioExtensionToMimeType = { mp3: "audio/mpeg", ... }] *)
Definition audioExtensionToMimeType : list (string * string) :=
  [("mp3", "audio/mpeg"); ("aac", "audio/mpeg"); ("opus", "audio/ogg");
   ("ogg", "audio/ogg"); ("wav", "audio/wav"); ("flac", "audio/flac");
   ("mp4", "audio/mp4"); ("webm", "audio/webm")].

(** The table is an object literal, so a key it does not have is looked up
    in [Object.prototype]; these are the property names found there, every
    one with a truthy value (a function, or the prototype itself). *)
Definition objectPrototypeKeys : list string :=
  ["constructor"; "hasOwnProperty"; "isPrototypeOf"; "propertyIsEnumerable";
   "toLocaleString"; "toString"; "valueOf"; "__proto__";
   "__defineGetter__"; "__defineSetter__"; "__lookupGetter__";
   "__lookupSetter__"].

(** What [getAudioMimeType] returns: a MIME type, or what the lookup found
    in [Object.prototype] under the extension. *)
Inductive MimeType :=
  | Mime (mime : string)
  | Inherited (key : string).

Fixpoint ownProperty (table : list (string * string)) (key : string)
    : option string :=
  match table with
  | [] => None
  | (k, v) :: rest => if String.eqb k key then Some v else ownProperty rest key
  end.

(** [uri.split(".").pop() || ""] *)
Definition extension (uri : string) : string :=
  default EmptyString (last (split "."%char uri)).

(** [function getAudioMimeType(uri)]:
    [audioExtensionToMimeType[extension] || "audio/mpeg"]. *)
Definition getAudioMimeType (uri : string) : MimeType :=
  let ext := extension uri in
  match ownProperty audioExtensionToMimeType ext with
  | Some mime => Mime mime
  | None =>
      if bool_decide (ext ∈ objectPrototypeKeys) then Inherited ext
      else Mime "audio/mpeg"
  end.

End AudioMime.

(** ** audio.main.ts: the sources of an audio emitter *)
Module Emitters.
Import JS.

(** Identity of a Web Audio node. *)
Definition AudioNodeId := nat.

(** Modelled from the spec: [MainAudioSource], [MainAudioEmitter] and
    [AudioEmitterOutput] are declared in [../resource/resource.main] and
    [../resource/schema], which are not among the sources; these are the
    fields [updateAudioEmitters] reads and writes. The gain nodes are
    optional: the code asserts them with [!]. *)
Record MainAudioSource := mkSource {
  eid : nat;
  gainNode : option AudioNodeId;
}.

Inductive AudioEmitterOutput := Environment | Music | Voice.

(** The three mixer inputs of the audio module. *)
Inductive MixerGain := environmentGain | voiceGain | musicGain.

#[global] Instance MixerGain_eq_dec : EqDecision MixerGain.
Proof. solve_decision. Defined.

Record MainAudioEmitter := mkEmitter {
  activeSources : list MainAudioSource;
  sources : list MainAudioSource;
  output : AudioEmitterOutput;
  destination : option MixerGain;
  inputGain : option AudioNodeId;
  outputGain : option AudioNodeId;
}.

(** The calls made on Web Audio nodes, in order. *)
Inductive AudioEffect :=
  | DisconnectFrom (node : AudioNodeId) (input : option AudioNodeId)
  | ConnectTo (node input : AudioNodeId)
  | SetGainValue (node : AudioNodeId)
  | DisconnectAll (node : AudioNodeId)
  | ConnectOutput (node : AudioNodeId) (dest : MixerGain).

(** [list.some((s) => x.eid === s.eid)], and [list.find(...)] tested for
    being there. *)
Definition hasEid (x : nat) (l : list MainAudioSource) : bool :=
  existsb (λ s, bool_decide (x = eid s)) l.

(** [try { activeSource.gainNode!.disconnect(audioEmitter.inputGain!) } catch {}]:
    the call is made whenever the source has its gain node, with the
    emitter's input gain as it is, be it undefined; without gain node the
    member access throws before any call. Whatever is thrown is swallowed. *)
Definition tryDisconnect (s : MainAudioSource) (input : option AudioNodeId)
    : list AudioEffect :=
  match gainNode s with
  | Some g => [DisconnectFrom g input]
  | None => []
  end.

(** "synchronize disconnections": [for (let j = activeSources.length - 1;
    j >= 0; j--)], with [j1] one above the index to visit next. Active
    sources that are no longer among the next sources are disconnected and
    spliced out. *)
Fixpoint dropInactive (j1 : nat) (nextSources : list MainAudioSource)
    (input : option AudioNodeId)
    (active : list MainAudioSource) (fx : list AudioEffect)
    : list MainAudioSource * list AudioEffect :=
  match j1 with
  | 0 => (active, fx)
  | S j =>
      match active !! j with
      | Some activeSource =>
          if hasEid (eid activeSource) nextSources then
            dropInactive j nextSources input active fx
          else
            dropInactive j nextSources input
              (delete j active) (fx ++ tryDisconnect activeSource input)
      | None => dropInactive j nextSources input active fx
      end
  end.

(** "synchronize connections": [for (let j = 0; j < nextSources.length; j++)].
    A next source that is not active is pushed onto the active ones and then
    connected; the connection throws when a node is missing. *)
Fixpoint connectNew (nextSources : list MainAudioSource)
    (input : option AudioNodeId)
    (active : list MainAudioSource) (fx : list AudioEffect)
    : Completion (list MainAudioSource * list AudioEffect) :=
  match nextSources with
  | [] => Normal (active, fx)
  | nextSource :: rest =>
      if hasEid (eid nextSource) active then connectNew rest input active fx
      else
        let active' := active ++ [nextSource] in
        match gainNode nextSource, input with
        | Some g, Some n => connectNew rest input active' (fx ++ [ConnectTo g n])
        | _, _ => Throw TypeError (active', fx)
        end
  end.

(** [audioEmitter.output === Voice ? voiceGain : output === Music ? musicGain
    : environmentGain] *)
Definition nextDestination (o : AudioEmitterOutput) : MixerGain :=
  match o with
  | Voice => voiceGain
  | Music => musicGain
  | Environment => environmentGain
  end.

(** The body of the loop of [updateAudioEmitters], for one emitter. Copying
    the gain value is floating-point work and shows as the effect only. *)
Definition updateAudioEmitter (em : MainAudioEmitter)
    : Completion (MainAudioEmitter * list AudioEffect) :=
  let '(active1, fx1) :=
    dropInactive (length (activeSources em)) (sources em) (inputGain em)
      (activeSources em) [] in
  match connectNew (sources em) (inputGain em) active1 fx1 with
  | Throw e (active2, fx2) =>
      Throw e (mkEmitter active2 (sources em) (output em) (destination em)
                 (inputGain em) (outputGain em), fx2)
  | Normal (active2, fx2) =>
      let em2 := mkEmitter active2 (sources em) (output em) (destination em)
                   (inputGain em) (outputGain em) in
      match outputGain em with
      | None => Throw TypeError (em2, fx2)
      | Some out =>
          let fx3 := fx2 ++ [SetGainValue out] in
          let next := nextDestination (output em) in
          if decide (destination em = Some next) then Normal (em2, fx3)
          else
            Normal (mkEmitter active2 (sources em) (output em) (Some next)
                      (inputGain em) (outputGain em),
                    fx3 ++ [DisconnectAll out; ConnectOutput out next])
      end
  end.

(** [function updateAudioEmitters(ctx, audioModule)]: every local emitter in
    turn; an emitter that throws ends the run, the ones behind it are left
    as they were. Returns the emitters and all effects. *)
Fixpoint updateAudioEmitters (emitters : list MainAudioEmitter)
    : Completion (list MainAudioEmitter * list AudioEffect) :=
  match emitters with
  | [] => Normal ([], [])
  | em :: rest =>
      match updateAudioEmitter em with
      | Throw e (em', fx) => Throw e (em' :: rest, fx)
      | Normal (em', fx) =>
          match updateAudioEmitters rest with
          | Normal (rest', fx') => Normal (em' :: rest', fx ++ fx')
          | Throw e (rest', fx') => Throw e (em' :: rest', fx ++ fx')
          end
      end
  end.

(** The entity ids of a list of sources. *)
Definition eids (l : list MainAudioSource) : list nat := eid <$> l.

End Emitters.

Module EmitterScenario.
Import Emitters.

(** An emitter that plays to the music mixer, whose active source 1 is no
    longer among its sources and whose source 2 is not active yet. *)
Definition stale : MainAudioEmitter :=
  mkEmitter [mkSource 1 (Some 10)] [mkSource 2 (Some 20)] Music None
    (Some 30) (Some 31).

(** The same emitter after one update, and the calls the update made. *)
Definition synced : MainAudioEmitter :=
  mkEmitter [mkSource 2 (Some 20)] [mkSource 2 (Some 20)] Music
    (Some musicGain) (Some 30) (Some 31).

Definition calls : list AudioEffect :=
  [DisconnectFrom 10 (Some 30); ConnectTo 20 30; SetGainValue 31;
   DisconnectAll 31; ConnectOutput 31 musicGain].

End EmitterScenario.

(** * Properties *)

(** ** [splice] *)
Module SpliceFacts.
Import JS.

Section Splice.
Context {A : Type}.
Implicit Types (arr items : list A) (x : A).

Lemma splice_one_removed i items arr old :
  arr !! i = Some old →
  (splice i 1 items arr).1 = [old].
Proof.
  intros Hold. unfold splice; cbn [fst].
  pose proof (lookup_lt_Some _ _ _ Hold) as Hi.
  rewrite (Nat.min_l i) by lia.
  rewrite (Nat.min_l 1) by lia.
  by rewrite (drop_S _ _ _ Hold).
Qed.

Lemma splice_replace_one i x arr :
  i < length arr →
  (splice i 1 [x] arr).2 = <[i := x]> arr.
Proof.
  intros Hi. unfold splice; cbn [snd].
  rewrite (Nat.min_l i) by lia.
  rewrite (Nat.min_l 1) by lia.
  rewrite Nat.add_1_r.
  by rewrite insert_take_drop.
Qed.

Lemma splice_past_end i n items arr :
  length arr ≤ i →
  splice i n items arr = ([], arr ++ items).
Proof.
  intros Hi. unfold splice.
  rewrite (Nat.min_r i) by lia.
  rewrite Nat.sub_diag, Nat.min_0_r. simpl.
  rewrite firstn_all, Nat.add_0_r, drop_all.
  by rewrite app_nil_r.
Qed.

Lemma splice_contains_items i n items arr x :
  x ∈ items → x ∈ (splice i n items arr).2.
Proof.
  intros Hx. unfold splice. simpl.
  rewrite !elem_of_app. auto.
Qed.

End Splice.
End SpliceFacts.

(** ** The object graph *)
Module GraphFacts.
Import Three Renderer.

Implicit Types (g : Graph) (o x y self : Obj) (l : list Obj).

Lemma removeFirst_elem x y l : y ∈ removeFirst x l → y ∈ l.
Proof.
  induction l as [|z l IH]; simpl; [done|].
  case_decide.
  - intros. by apply elem_of_cons; right.
  - rewrite !elem_of_cons. intros [->|?]; auto.
Qed.

Lemma removeFirst_gone x l : NoDup l → x ∉ removeFirst x l.
Proof.
  induction 1 as [|z l Hz Hnd IH]; simpl; [by apply not_elem_of_nil|].
  case_decide as Hzx.
  - by subst.
  - rewrite elem_of_cons. intros [->|?]; [done|]. by apply IH.
Qed.

Lemma childrenOf_insert g self l other rest :
  childrenOf (mkGraph (<[self := l]> (children g)) rest) other
  = if decide (self = other) then l else childrenOf g other.
Proof.
  unfold childrenOf; simpl. unfold Obj in *.
  rewrite lookup_insert. by case_decide.
Qed.

Lemma childrenOf_remove_elem p x g self y :
  y ∈ childrenOf (remove p x g) self → y ∈ childrenOf g self.
Proof.
  unfold remove. case_decide; [|done].
  rewrite childrenOf_insert. case_decide; [|done].
  subst. apply removeFirst_elem.
Qed.

Lemma childrenOf_remove_gone self x g :
  NoDup (childrenOf g self) → x ∉ childrenOf (remove self x g) self.
Proof.
  intros Hnd. unfold remove. case_decide as Hin; [|done].
  rewrite childrenOf_insert. rewrite decide_True by done.
  by apply removeFirst_gone.
Qed.

Lemma childrenOf_add_new self o g :
  o ≠ self → o ∈ childrenOf (add self o g) self.
Proof.
  intros Hne. unfold add. rewrite decide_False by done.
  rewrite childrenOf_insert, decide_True by done.
  apply elem_of_app; right. by apply list_elem_of_singleton.
Qed.

Lemma childrenOf_add_elem self o g y :
  y ∈ childrenOf (add self o g) self → y = o ∨ y ∈ childrenOf g self.
Proof.
  unfold add. case_decide; [by right|].
  rewrite childrenOf_insert, decide_True by done.
  rewrite elem_of_app, list_elem_of_singleton.
  intros [Hin| ->]; [right | by left].
  destruct (parent g !! o); [|done].
  by eapply childrenOf_remove_elem.
Qed.


Lemma removeFirst_NoDup x l : NoDup l → NoDup (removeFirst x l).
Proof.
  induction 1 as [|z l Hz Hnd IH]; simpl; [constructor|].
  case_decide; [done|]. constructor; [|done].
  intros Hin. by apply removeFirst_elem in Hin.
Qed.

Lemma removeFirst_length x l :
  x ∈ l → S (length (removeFirst x l)) = length l.
Proof.
  induction l as [|z l IH]; simpl; [by intros ?%not_elem_of_nil|].
  case_decide as Hzx; [done|].
  rewrite elem_of_cons. intros [->|Hin]; [done|]. simpl. by rewrite IH.
Qed.

Lemma remove_linked p o g : linked g → linked (remove p o g).
Proof.
  intros [Hnd Hlink]. unfold remove. case_decide as Hin; [|done].
  split.
  - intros q. rewrite childrenOf_insert. case_decide; [|done].
    by apply removeFirst_NoDup.
  - intros q x. rewrite childrenOf_insert. simpl. unfold Obj in *.
    case_decide as Hpq.
    + subst q. intros Hx.
      assert (x ≠ o) by (intros ->; by eapply removeFirst_gone).
      rewrite lookup_delete_ne by done.
      by apply Hlink, (removeFirst_elem o).
    + intros Hx.
      assert (x ≠ o).
      { intros ->. apply Hlink in Hx, Hin. congruence. }
      rewrite lookup_delete_ne by done. by apply Hlink.
Qed.

(** Before [add] pushes the object, it is in no children array. *)
Lemma detached_nowhere o g :
  linked g →
  let g1 := match parent g !! o with
            | Some p => remove p o g
            | None => g
            end in
  linked g1 ∧ ∀ q, o ∉ childrenOf g1 q.
Proof.
  intros Hl. pose proof Hl as [Hnd Hlink].
  destruct (parent g !! o) as [p|] eqn:Hp; simpl.
  - split; [by apply remove_linked|]. intros q Hin.
    destruct (decide (q = p)) as [->|Hne].
    + by apply childrenOf_remove_gone in Hin.
    + apply childrenOf_remove_elem, Hlink in Hin. congruence.
  - split; [done|]. intros q Hin. apply Hlink in Hin. congruence.
Qed.

Lemma add_linked self o g : linked g → linked (add self o g).
Proof.
  intros Hl. unfold add. case_decide as Hos; [done|].
  destruct (detached_nowhere o g Hl) as [[Hnd Hlink] Hfree].
  set (g1 := match parent g !! o with Some p => remove p o g | None => g end) in *.
  split.
  - intros q. rewrite childrenOf_insert. case_decide; [|done].
    apply NoDup_app. split; [done|]. split; [|apply NoDup_singleton].
    intros x Hx ->%list_elem_of_singleton. by apply (Hfree self).
  - intros q x. rewrite childrenOf_insert. simpl. unfold Obj in *.
    case_decide as Hq.
    + subst q. rewrite elem_of_app, list_elem_of_singleton.
      intros [Hx| ->]; [|by rewrite lookup_insert_eq].
      rewrite lookup_insert_ne; [by apply Hlink|].
      intros ->. by apply (Hfree self).
    + intros Hx. rewrite lookup_insert_ne; [by apply Hlink|].
      intros ->. by apply (Hfree q).
Qed.

Lemma add_keeps_length old new child g :
  linked g → child ∈ childrenOf g old →
  length (childrenOf (add new child g) old) ≤ length (childrenOf g old).
Proof.
  intros [Hnd Hlink] Hin. unfold add. case_decide as Hcn; [done|].
  rewrite (Hlink _ _ Hin).
  assert (S (length (childrenOf (remove old child g) old))
          = length (childrenOf g old)) as Hlen.
  { unfold remove. rewrite decide_True by done.
    rewrite childrenOf_insert, decide_True by done.
    by apply removeFirst_length. }
  rewrite childrenOf_insert. case_decide as Hno.
  - subst. rewrite length_app. simpl. lia.
  - lia.
Qed.

(** The loop of [setScene] is over after as many steps as the old scene had
    children at its start: further steps find no child to read. *)
Lemma adoptChildren_enough n m i old new g :
  linked g →
  length (childrenOf g old) ≤ i + n → n ≤ m →
  adoptChildren m i old new g = adoptChildren n i old new g.
Proof.
  revert m i g. induction n as [|n IH]; intros m i g Hl Hlen Hnm.
  - simpl. destruct m as [|m]; [done|]. simpl.
    by rewrite lookup_ge_None_2 by lia.
  - destruct m as [|m]; [lia|]. simpl.
    destruct (childrenOf g old !! i) as [child|] eqn:Hchild; [|done].
    apply IH; [by apply add_linked| |lia].
    pose proof (add_keeps_length old new child g Hl
                  (list_elem_of_lookup_2 _ _ _ Hchild)).
    lia.
Qed.

End GraphFacts.

(** ** The renderable table and its handlers *)
Module RendererFacts.
Import JS Renderer SpliceFacts.

Implicit Types (st : RenderThreadState) (e : Eid) (rid : ResourceId).

Lemma onRemoveRenderable_forgets st e :
  renderableIndices (onRemoveRenderable st e) !! e = None.
Proof.
  unfold onRemoveRenderable.
  destruct (renderableIndices st !! e) as [index|] eqn:Hindex; [|done].
  destruct (splice index 1 [] (renderables st)) as [removed arr].
  destruct removed as [|r ?]; [apply lookup_delete_eq|].
  destruct (object r), (helper r); apply lookup_delete_eq.
Qed.

Lemma onRemoveRenderable_absent st e :
  renderableIndices st !! e = None → onRemoveRenderable st e = st.
Proof. intros H. unfold onRemoveRenderable. by rewrite H. Qed.

(** C6. Removing the renderable of an entity twice in a row leaves the
    whole render-thread state (in particular [renderables],
    [renderableIndices], [objectToEntityMap] and the scene) as one removal
    leaves it; and for an entity without index the removal changes nothing
    and does not throw. *)
Theorem C6_onRemoveRenderable_idempotent st e :
  onRemoveRenderable (onRemoveRenderable st e) e = onRemoveRenderable st e
  ∧ dispatch (onRemoveRenderable st e) (RemoveRenderable e)
    = Normal (onRemoveRenderable st e)
  ∧ (renderableIndices st !! e = None →
     dispatch st (RemoveRenderable e) = Normal st).
Proof.
  assert (onRemoveRenderable (onRemoveRenderable st e) e
          = onRemoveRenderable st e) as Hidem
    by apply onRemoveRenderable_absent, onRemoveRenderable_forgets.
  split; [done|]. split.
  - simpl. by rewrite Hidem.
  - intros Hnone. simpl. by rewrite onRemoveRenderable_absent.
Qed.

(** C6 at work: entity 1 was removed already; removing it again returns the
    state as it is. *)
Lemma C6_onRemoveRenderable_idempotent_witness :
  renderableIndices Scenario.afterRemoval !! 1 = None
  ∧ dispatch Scenario.afterRemoval (RemoveRenderable 1)
    = Normal Scenario.afterRemoval.
Proof.
  split; [by vm_compute|].
  apply (C6_onRemoveRenderable_idempotent Scenario.afterRemoval 1).
  by vm_compute.
Defined.

(** C10. An AddRenderable message whose resource id is not in the resource
    manager's store makes the handler log a warning and return: the
    renderables, the indices, the object-to-entity map, the scene and its
    object graph, the queue and the pending callbacks are what they
    were. *)
Theorem C10_unknown_resource_changes_nothing st rid e :
  store st !! rid = None →
  let st' := onAddRenderable st rid e in
  renderables st' = renderables st
  ∧ renderableIndices st' = renderableIndices st
  ∧ objectToEntityMap st' = objectToEntityMap st
  ∧ scene st' = scene st
  ∧ graph st' = graph st
  ∧ renderableMessageQueue st' = renderableMessageQueue st
  ∧ promiseCallbacks st' = promiseCallbacks st
  ∧ store st' = store st
  ∧ camera st' = camera st
  ∧ effects st' = effects st ++ [WarnUnknownResource rid e].
Proof.
  intros Hnone st'. subst st'. unfold onAddRenderable.
  rewrite Hnone. by repeat split.
Qed.

(** C10 at work: resource 9 is not in the store. *)
Lemma C10_unknown_resource_changes_nothing_witness :
  store Scenario.afterRemoval !! 9 = None
  ∧ renderables (onAddRenderable Scenario.afterRemoval 9 2)
    = renderables Scenario.afterRemoval.
Proof.
  split; [by vm_compute|].
  apply (C10_unknown_resource_changes_nothing Scenario.afterRemoval 9 2).
  by vm_compute.
Defined.

End RendererFacts.

(** ** The message queue *)
Module QueueFacts.
Import JS Renderer SpliceFacts.

Implicit Types (st : RenderThreadState) (m : RenderableMessages)
  (q ms : list RenderableMessages).

Lemma removeDisplaced_queue_frame removed st q :
  removeDisplaced removed (set_renderableMessageQueue st q)
  = set_renderableMessageQueue (removeDisplaced removed st) q.
Proof. destruct removed as [|r ?]; [done|]. simpl. by destruct (object r). Qed.

Lemma onAddRenderable_queue_frame st q rid e :
  onAddRenderable (set_renderableMessageQueue st q) rid e
  = set_renderableMessageQueue (onAddRenderable st rid e) q.
Proof.
  unfold onAddRenderable. cbn.
  destruct (store st !! rid) as [[| o | err]|]; [| | done..].
  - destruct (renderableIndices st !! e) as [i|]; [|done].
    destruct (splice i 1 _ (renderables st)) as [removed arr] eqn:Hsp.
    destruct removed as [|r ?]; [done|]. simpl. by destruct (object r).
  - destruct (renderableIndices st !! e) as [i|]; [|done].
    destruct (splice i 1 _ (renderables st)) as [removed arr] eqn:Hsp.
    destruct removed as [|r ?]; [done|]. simpl. by destruct (object r).
Qed.

Lemma onRemoveRenderable_queue_frame st q e :
  onRemoveRenderable (set_renderableMessageQueue st q) e
  = set_renderableMessageQueue (onRemoveRenderable st e) q.
Proof.
  unfold onRemoveRenderable. cbn.
  destruct (renderableIndices st !! e) as [i|]; [|done].
  destruct (splice i 1 _ (renderables st)) as [removed arr] eqn:Hsp.
  destruct removed as [|r ?]; [done|].
  by destruct (object r), (helper r).
Qed.

Lemma dispatch_queue_frame st q m :
  dispatch (set_renderableMessageQueue st q) m
  = onState (withQueue q) (dispatch st m).
Proof.
  destruct m as [rid e | e | e | e rid]; simpl.
  - by rewrite onAddRenderable_queue_frame.
  - by rewrite onRemoveRenderable_queue_frame.
  - unfold onSetActiveCamera. simpl.
    destruct (renderableIndices st !! e) as [i|]; [|done].
    destruct (renderables st !! i) as [r|]; [|done].
    by destruct (object r).
  - unfold onSetActiveScene. simpl.
    destruct (store st !! rid) as [info|]; [|done].
    by destruct (resource info).
Qed.

Lemma runInOrder_queue_frame ms st q :
  runInOrder (set_renderableMessageQueue st q) ms
  = (onState (withQueue q) (runInOrder st ms).1, (runInOrder st ms).2).
Proof.
  revert st. induction ms as [|m ms IH]; intros st; [done|].
  simpl. rewrite dispatch_queue_frame.
  destruct (dispatch st m) as [st'|err st']; simpl; [apply IH | done].
Qed.

Lemma set_queue_twice st q q' :
  set_renderableMessageQueue (set_renderableMessageQueue st q) q'
  = set_renderableMessageQueue st q'.
Proof. done. Qed.

Lemma set_queue_same st :
  set_renderableMessageQueue st (renderableMessageQueue st) = st.
Proof. by destruct st. Qed.

Lemma onState_withQueue_twice (c : Completion RenderThreadState) q q' :
  onState (withQueue q') (onState (withQueue q) c) = onState (withQueue q') c.
Proof. by destruct c. Qed.

(** The drain loop against its reference semantics: with fuel for every
    queued message it returns, having handled the messages from the head
    of the queue on; what is left in the queue is what was not reached. *)
Lemma processRenderableMessages_runInOrder fuel st :
  length (renderableMessageQueue st) ≤ fuel →
  processRenderableMessages fuel st
  = Some (onState (withQueue (runInOrder st (renderableMessageQueue st)).2)
            (runInOrder st (renderableMessageQueue st)).1).
Proof.
  revert st. induction fuel as [|fuel IH]; intros st Hfuel.
  - destruct st as [? ? ? q ? ? ? ? ? ?]; simpl in *.
    destruct q; [done | simpl in Hfuel; lia].
  - destruct (renderableMessageQueue st) as [|m rest] eqn:Hq.
    + destruct fuel; simpl; rewrite Hq; simpl; unfold withQueue;
        by rewrite <- Hq, set_queue_same.
    + simpl in Hfuel. simpl. rewrite Hq.
      rewrite dispatch_queue_frame.
      destruct (dispatch st m) as [st'|err st']; simpl; [|done].
      unfold withQueue at 1.
      rewrite IH by (simpl; lia). simpl.
      rewrite runInOrder_queue_frame. simpl.
      by rewrite onState_withQueue_twice.
Qed.

Lemma runInOrder_normal ms st st' rest :
  runInOrder st ms = (Normal st', rest) →
  rest = [] ∧ st' = foldl handle st ms.
Proof.
  revert st. induction ms as [|m ms IH]; intros st; simpl.
  - by intros [= <- <-].
  - unfold handle at 2.
    destruct (dispatch st m) as [st1|err st1]; simpl; [apply IH | done].
Qed.

Lemma runInOrder_rest_suffix ms st c rest :
  runInOrder st ms = (c, rest) → ∃ done, ms = done ++ rest.
Proof.
  revert st. induction ms as [|m ms IH]; intros st; simpl.
  - intros [= _ <-]. by exists [].
  - destruct (dispatch st m) as [st'|err st'].
    + intros Hrun. destruct (IH _ Hrun) as [d ->]. by exists (m :: d).
    + intros [= _ ->]. by exists [m].
Qed.

Lemma onRenderableMessage_appends ms st :
  renderableMessageQueue (foldl onRenderableMessage st ms)
  = renderableMessageQueue st ++ ms.
Proof.
  revert st. induction ms as [|m ms IH]; intros st; simpl.
  - by rewrite app_nil_r.
  - rewrite IH. simpl. by rewrite <- app_assoc.
Qed.

Lemma onRenderableMessage_scene_camera ms st :
  scene (foldl onRenderableMessage st ms) = scene st
  ∧ camera (foldl onRenderableMessage st ms) = camera st.
Proof.
  revert st. induction ms as [|m ms IH]; intros st; simpl; [done|].
  by destruct (IH (onRenderableMessage st m)) as [-> ->].
Qed.

(** Messages enqueued by [onRenderableMessage] line up behind the ones
    already queued. A frame then returns (with fuel for every queued
    message), and it has handled the queued messages from the head on, each
    on the state its predecessor left: either every handler returned, and
    then all of them were handled, in the order of enqueueing, the queue is
    empty, and only after that the read buffer is swapped and the scene
    rendered; or a handler threw, and the frame stops there with the
    messages behind it still queued, in order, without swapping or
    rendering. *)
Lemma frame_handles_queue_in_order st ms fuel :
  length (renderableMessageQueue st) + length ms ≤ fuel →
  let st1 := foldl onRenderableMessage st ms in
  let queued := renderableMessageQueue st ++ ms in
  renderableMessageQueue st1 = queued
  ∧ match runInOrder st1 queued with
    | (Normal st2, _) =>
        st2 = foldl handle st1 queued
        ∧ onUpdate fuel st1
          = Some (Normal (finishFrame (scene st) (camera st)
                            (set_renderableMessageQueue st2 [])))
    | (Throw err st2, rest) =>
        onUpdate fuel st1
        = Some (Throw err (set_renderableMessageQueue st2 rest))
        ∧ ∃ done, queued = done ++ rest
    end.
Proof.
  intros Hfuel st1 queued.
  assert (renderableMessageQueue st1 = queued) as Hq
    by apply onRenderableMessage_appends.
  split; [done|].
  unfold onUpdate.
  rewrite processRenderableMessages_runInOrder
    by (rewrite Hq; unfold queued; rewrite length_app; lia).
  rewrite Hq.
  destruct (onRenderableMessage_scene_camera ms st) as [Hs Hc].
  fold st1 in Hs, Hc. rewrite Hs, Hc.
  destruct (runInOrder st1 queued) as [[st2|err st2] rest] eqn:Hrun; simpl.
  - apply runInOrder_normal in Hrun as [-> ->]. done.
  - split; [done|]. eapply runInOrder_rest_suffix, Hrun.
Qed.

(** C8. A frame does not always drain its queue. [onSetActiveCamera] tests
    that the entity has an entry in [renderables] and then reads
    [isPerspectiveCamera] off the entry's [object], which is undefined while
    the entity's resource is loading. With the queue
    [AddRenderable(4,3); SetActiveCamera(3); RemoveRenderable(3)] and
    resource 4 loading, the first message stores the placeholder of entity 3,
    the second throws a TypeError, and the frame ends there: the third
    message is not processed and stays queued, and the frame neither swaps
    the read buffer nor renders. So not every frame processes all queued
    messages before it swaps and renders. *)
Theorem C8_frame_stops_at_throwing_handler :
  renderableMessageQueue Scenario.cameraWhileLoading
  = [AddRenderable 4 3; SetActiveCamera 3; RemoveRenderable 3]
  ∧ (∃ st1,
       onAddRenderable Scenario.cameraWhileLoading 4 3 = st1
       ∧ renderables st1 = [mkRenderable None None 3 4]
       ∧ onSetActiveCamera st1 3 = Throw TypeError st1)
  ∧ (∃ st',
       Scenario.frame Scenario.cameraWhileLoading = Some (Throw TypeError st')
       ∧ renderableMessageQueue st' = [RemoveRenderable 3]
       ∧ renderables st' = [mkRenderable None None 3 4]
       ∧ effects st' = [])
  ∧ ¬ (∀ st, ∃ st',
         onUpdate (length (renderableMessageQueue st)) st = Some (Normal st')
         ∧ renderableMessageQueue st' = []).
Proof.
  split; [by vm_compute|]. split; [|split].
  - eexists. split; [reflexivity|]. split; by vm_compute.
  - eexists. split; [by vm_compute|]. by vm_compute.
  - intros Hall. destruct (Hall Scenario.cameraWhileLoading) as (st' & Hframe & _).
    by vm_compute in Hframe.
Qed.

End QueueFacts.

(** ** The entity table *)
Module TableFacts.
Import JS Renderer SpliceFacts.

Implicit Types (st : RenderThreadState) (e : Eid) (rid : ResourceId)
  (r : Renderable).

Lemma splice_replace_at {A} i (x old : A) arr :
  arr !! i = Some old → splice i 1 [x] arr = ([old], <[i := x]> arr).
Proof.
  intros Hold. pose proof (lookup_lt_Some _ _ _ Hold).
  rewrite (surjective_pairing (splice i 1 [x] arr)).
  by rewrite (splice_one_removed _ _ _ _ Hold), splice_replace_one.
Qed.

(** What [removeDisplaced] and the scene calls leave alone. *)
Lemma removeDisplaced_table removed st :
  renderables (removeDisplaced removed st) = renderables st
  ∧ renderableIndices (removeDisplaced removed st) = renderableIndices st
  ∧ scene (removeDisplaced removed st) = scene st.
Proof. destruct removed as [|r ?]; [done|]. simpl. by destruct (object r). Qed.

Lemma create_consistent sceneObj cameraObj resources :
  indicesConsistent (create sceneObj cameraObj resources).
Proof. intros e i. simpl. by rewrite lookup_empty. Qed.

(** Replacing the entry of [e] in place, or appending one for a new
    entity, keeps the table consistent. *)
Lemma replace_consistent st e i entry :
  indicesConsistent st → renderableIndices st !! e = Some i → eid entry = e →
  ∀ e' j, renderableIndices st !! e' = Some j →
    ∃ r, <[i := entry]> (renderables st) !! j = Some r ∧ eid r = e'.
Proof.
  intros Hc Hi He e' j Hj.
  destruct (Hc _ _ Hj) as (r & Hr & Hre).
  destruct (decide (j = i)) as [->|Hne].
  - exists entry. split.
    + apply list_lookup_insert_eq. by eapply lookup_lt_Some.
    + destruct (Hc _ _ Hi) as (r' & Hr' & Hre'). congruence.
  - exists r. by rewrite list_lookup_insert_ne.
Qed.

Lemma append_consistent st e entry :
  indicesConsistent st → eid entry = e →
  ∀ e' j, <[e := length (renderables st)]> (renderableIndices st) !! e' = Some j →
    ∃ r, (renderables st ++ [entry]) !! j = Some r ∧ eid r = e'.
Proof.
  intros Hc He e' j. unfold Eid in *. rewrite lookup_insert.
  case_decide as Hee.
  - intros [= <-]. exists entry. split; [|congruence].
    by rewrite lookup_app_r, Nat.sub_diag.
  - intros Hj. destruct (Hc _ _ Hj) as (r & Hr & Hre).
    exists r. split; [|done]. by apply lookup_app_l_Some.
Qed.

Lemma onAddRenderable_consistent st rid e :
  indicesConsistent st → indicesConsistent (onAddRenderable st rid e).
Proof.
  intros Hc. unfold onAddRenderable.
  destruct (store st !! rid) as [[| o | err]|]; [| |done..].
  - destruct (renderableIndices st !! e) as [i|] eqn:Hi.
    + destruct (Hc _ _ Hi) as (old & Hold & _).
      rewrite (splice_replace_at _ _ _ _ Hold).
      intros e' j. cbn. destruct (object old); cbn; by apply (replace_consistent st e).
    + intros e' j. cbn. by apply append_consistent.
  - destruct (renderableIndices st !! e) as [i|] eqn:Hi.
    + destruct (Hc _ _ Hi) as (old & Hold & _).
      rewrite (splice_replace_at _ _ _ _ Hold).
      intros e' j. cbn. destruct (object old); cbn; by apply (replace_consistent st e).
    + intros e' j. cbn. by apply append_consistent.
Qed.

(** C9. The table does not stay consistent: [onRemoveRenderable] splices
    the entry out of [renderables] and forgets the entity's index, but the
    indices of the entities behind it are not moved down. After adding two
    entities and removing the first, the index kept for the second one lies
    past the end of [renderables]; with three, it points at the entry of
    the third. *)
Theorem C9_removal_leaves_stale_indices :
  indicesConsistent
    (foldl handle Scenario.start [AddRenderable 1 1; AddRenderable 2 2])
  ∧ renderableIndices Scenario.afterRemoval !! 2 = Some 1
  ∧ length (renderables Scenario.afterRemoval) = 1
  ∧ renderableOf Scenario.afterRemoval 2 = None
  ∧ renderableIndices Scenario.afterRemovalOfThree !! 2 = Some 1
  ∧ eid <$> renderableOf Scenario.afterRemovalOfThree 2 = Some 3
  ∧ ¬ indicesConsistent Scenario.afterRemoval
  ∧ ¬ indicesConsistent Scenario.afterRemovalOfThree.
Proof.
  split.
  { simpl. do 2 apply onAddRenderable_consistent. apply create_consistent. }
  do 5 (split; [by vm_compute|]).
  split.
  - intros Hc. destruct (Hc 2 1) as (r & Hr & _); [by vm_compute|].
    by vm_compute in Hr.
  - intros Hc. destruct (Hc 2 1) as (r & Hr & He); [by vm_compute|].
    vm_compute in Hr. by injection Hr as <-.
Qed.

End TableFacts.

(** ** What holds in every state *)
Module HandlerFacts.
Import JS Renderer SpliceFacts GraphFacts.

Implicit Types (st : RenderThreadState) (e : Eid) (rid : ResourceId)
  (m : RenderableMessages).

Lemma adoptChildren_linked n i old new g :
  linked g → linked (adoptChildren n i old new g).
Proof.
  revert i g. induction n as [|n IH]; intros i g Hl; [done|]. simpl.
  destruct (childrenOf g old !! i); [|done]. by apply IH, add_linked.
Qed.

Lemma removeDisplaced_linked removed st :
  linked (graph st) → linked (graph (removeDisplaced removed st)).
Proof.
  intros Hl. destruct removed as [|r ?]; [done|]. simpl.
  destruct (object r); [|done]. by apply remove_linked.
Qed.

Lemma onAddRenderable_linked st rid e :
  linked (graph st) → linked (graph (onAddRenderable st rid e)).
Proof.
  intros Hl. unfold onAddRenderable.
  destruct (store st !! rid) as [[| o | err]|]; [| |done..].
  - destruct (renderableIndices st !! e) as [i|]; [|done].
    destruct (splice i 1 _ (renderables st)) as [removed arr].
    by apply (removeDisplaced_linked removed (set_renderables st arr)).
  - apply add_linked.
    destruct (renderableIndices st !! e) as [i|]; [|done].
    destruct (splice i 1 _ (renderables st)) as [removed arr].
    by apply (removeDisplaced_linked removed (set_renderables st arr)).
Qed.

Lemma onRemoveRenderable_linked st e :
  linked (graph st) → linked (graph (onRemoveRenderable st e)).
Proof.
  intros Hl. unfold onRemoveRenderable.
  destruct (renderableIndices st !! e) as [i|]; [|done].
  destruct (splice i 1 _ (renderables st)) as [removed arr].
  destruct removed as [|r ?]; [done|].
  destruct (object r), (helper r); simpl; repeat apply remove_linked; done.
Qed.

(** The handlers keep the object graph linked, so the scene never lists an
    object twice. *)
Lemma handle_linked st m :
  linked (graph st) → linked (graph (handle st m)).
Proof.
  intros Hl. destruct m as [rid e | e | e | e rid]; unfold handle; simpl.
  - by apply onAddRenderable_linked.
  - by apply onRemoveRenderable_linked.
  - unfold onSetActiveCamera.
    destruct (renderableIndices st !! e) as [i|]; [|done].
    destruct (renderables st !! i) as [r|]; [|done].
    by destruct (object r).
  - unfold onSetActiveScene.
    destruct (store st !! rid) as [info|]; [|done].
    destruct (resource info); [|done]. by apply adoptChildren_linked.
Qed.

(** In a linked graph the loop of [setScene] would do nothing more with
    more steps than [setScene] gives it. *)
Lemma setScene_steps_enough st (new : Obj) (steps : nat) :
  linked (graph st) →
  length (childrenOf (graph st) (scene st)) ≤ steps →
  adoptChildren steps 0 (scene st) new (graph st) = graph (setScene new st).
Proof. intros Hl Hm. by apply adoptChildren_enough. Qed.

(** In every state, handling AddRenderable for a loading resource puts a
    placeholder for the entity into [renderables], gives the entity an index,
    attaches exactly one callback to the load, carrying the message, and
    leaves the queue alone: nothing is retried before the load settles. *)
Lemma onAddRenderable_loading_always st rid e :
  store st !! rid = Some InfoLoading →
  let st' := onAddRenderable st rid e in
  mkRenderable None None e rid ∈ renderables st'
  ∧ is_Some (renderableIndices st' !! e)
  ∧ promiseCallbacks st' = promiseCallbacks st ++ [(rid, Requeue rid e)]
  ∧ renderableMessageQueue st' = renderableMessageQueue st
  ∧ store st' = store st.
Proof.
  intros Hstore st'. subst st'. unfold onAddRenderable. rewrite Hstore.
  destruct (renderableIndices st !! e) as [i|] eqn:Hi.
  - pose proof (splice_contains_items i 1 [mkRenderable None None e rid]
                  (renderables st) (mkRenderable None None e rid)) as Hin.
    destruct (splice i 1 _ (renderables st)) as [removed arr]. simpl in Hin.
    destruct removed as [|r ?]; simpl.
    + rewrite Hi. split; [apply Hin; by apply list_elem_of_singleton|done].
    + destruct (object r); simpl; rewrite Hi;
        (split; [apply Hin; by apply list_elem_of_singleton|done]).
  - simpl. unfold Eid in *. rewrite lookup_insert_eq.
    split; [|done]. apply elem_of_app; right. by apply list_elem_of_singleton.
Qed.

(** The callbacks of a load run once: when the load settles they are taken
    off the promise, and running them attaches none. *)
Lemma runContinuation_callbacks o st k :
  promiseCallbacks (runContinuation o st k) = promiseCallbacks st.
Proof.
  destruct k as [rid e|]; simpl.
  - unfold requeueWhenLoaded.
    destruct (renderableIndices st !! e) as [i|]; [|done].
    destruct (renderables st !! i) as [r|]; [|done].
    by case_decide.
  - by destruct o.
Qed.

Lemma settleLoad_one_shot st rid o :
  store st !! rid = Some InfoLoading →
  promiseCallbacks (settleLoad rid o st)
  = callbacksNotOf rid (promiseCallbacks st)
  ∧ callbacksOf rid (promiseCallbacks (settleLoad rid o st)) = [].
Proof.
  intros Hstore. unfold settleLoad. rewrite Hstore.
  assert (∀ ks s, promiseCallbacks (foldl (runContinuation o) s ks)
                  = promiseCallbacks s) as Hfold.
  { induction ks as [|k ks IH]; intros s; [done|]. simpl.
    by rewrite IH, runContinuation_callbacks. }
  rewrite Hfold. simpl. split; [done|].
  unfold callbacksOf, callbacksNotOf.
  induction (promiseCallbacks st) as [|[r k] cbs IH]; [done|].
  rewrite filter_cons. case_decide as Hr; simpl in Hr.
  - rewrite filter_cons. by rewrite decide_False by (simpl; congruence).
  - done.
Qed.

End HandlerFacts.

(** ** Attaching renderables *)
Module AttachFacts.
Import JS Renderer SpliceFacts GraphFacts TableFacts.

Implicit Types (st : RenderThreadState) (e : Eid) (rid : ResourceId)
  (r : Renderable) (o : Obj).

(** On a consistent table, a loaded resource is attached in place of what
    the entity had: the entity's entry carries the resource id and the
    object, the object is in the scene, and the object the entity had before
    is no longer there. *)
Lemma onAddRenderable_loaded st rid e o :
  indicesConsistent st →
  store st !! rid = Some (InfoLoaded o) →
  let st' := onAddRenderable st rid e in
  renderableOf st' e = Some (mkRenderable (Some o) None e rid)
  ∧ (o ≠ scene st → o ∈ sceneChildren st')
  ∧ (∀ r old, renderableOf st e = Some r → object r = Some old → old ≠ o →
       NoDup (sceneChildren st) → old ∉ sceneChildren st').
Proof.
  intros Hc Hstore st'. subst st'. unfold onAddRenderable. rewrite Hstore.
  unfold renderableOf, sceneChildren.
  destruct (renderableIndices st !! e) as [i|] eqn:Hi; cbn [mbind option_bind].
  - destruct (Hc _ _ Hi) as (prev & Hprev & _).
    rewrite (splice_replace_at _ _ _ _ Hprev). rewrite Hprev.
    cbn [removeDisplaced].
    split; [|split].
    + destruct (object prev); cbn; rewrite Hi; cbn;
        by rewrite list_lookup_insert_eq by by eapply lookup_lt_Some.
    + intros Hne. destruct (object prev); cbn; by apply childrenOf_add_new.
    + intros r old [= <-] Hold Hne Hnd. rewrite Hold. cbn.
      intros Hin. apply childrenOf_add_elem in Hin as [?|Hin]; [done|].
      by apply childrenOf_remove_gone in Hin.
  - split; [|split].
    + cbn. unfold Eid in *. rewrite lookup_insert_eq. cbn.
      by rewrite lookup_app_r, Nat.sub_diag.
    + intros Hne. cbn. by apply childrenOf_add_new.
    + intros r old [=].
Qed.

(** On a consistent table, a resource that is still loading leaves a
    placeholder as the entity's entry and one more callback on the load's
    promise; the queue is not touched, and the callback, were the load to
    resolve right away, would enqueue the very same message once. *)
Lemma onAddRenderable_loading st rid e :
  indicesConsistent st →
  store st !! rid = Some InfoLoading →
  let st' := onAddRenderable st rid e in
  renderableOf st' e = Some (mkRenderable None None e rid)
  ∧ promiseCallbacks st' = promiseCallbacks st ++ [(rid, Requeue rid e)]
  ∧ renderableMessageQueue st' = renderableMessageQueue st
  ∧ requeueWhenLoaded rid e st' = Normal (enqueue (AddRenderable rid e) st').
Proof.
  intros Hc Hstore st'. subst st'. unfold onAddRenderable. rewrite Hstore.
  unfold renderableOf, requeueWhenLoaded.
  destruct (renderableIndices st !! e) as [i|] eqn:Hi.
  - destruct (Hc _ _ Hi) as (prev & Hprev & _).
    pose proof (lookup_lt_Some _ _ _ Hprev) as Hlt.
    rewrite (splice_replace_at _ _ _ _ Hprev).
    cbn [removeDisplaced].
    destruct (object prev); cbn; rewrite Hi; cbn;
      rewrite list_lookup_insert_eq by done; cbn;
      by rewrite decide_False by (by intros ?).
  - cbn. unfold Eid in *. rewrite lookup_insert_eq. cbn.
    rewrite lookup_app_r, Nat.sub_diag by done. cbn.
    by rewrite decide_False by (by intros ?).
Qed.



(** C4. A loaded resource is not always attached in place of what the entity
    had. After entities 1 and 2 were added and entity 1 removed, entity 2 has
    object 12 in the scene but its index points past the end of
    [renderables]. Giving entity 2 the loaded resource 3 then appends a second
    entry for it: the old entry stays, and the old object 12 stays in the
    scene next to the new object 13. *)
Theorem C4_replacement_keeps_previous_object :
  store Scenario.afterRemoval !! 3 = Some (InfoLoaded 13)
  ∧ renderables Scenario.afterRemoval = [mkRenderable (Some 12) None 2 2]
  ∧ sceneChildren Scenario.afterRemoval = [12]
  ∧ renderables Scenario.replacedAfterRemoval
    = [mkRenderable (Some 12) None 2 2; mkRenderable (Some 13) None 2 3]
  ∧ sceneChildren Scenario.replacedAfterRemoval = [12; 13].
Proof. by vm_compute. Qed.

(** C5. The callback attached for a loading resource does not always
    re-enqueue the message. After entities 1, 2 and 3 were added and 1 and 2
    removed, the index of entity 3 lies two past the end of [renderables].
    Giving it the loading resource 4 appends the placeholder where the index
    does not point, and attaches the callback; when the load resolves, the
    callback reads [renderables[2].resourceId] off [undefined] and throws, so
    nothing is enqueued and a later frame attaches nothing. *)
Theorem C5_callback_throws_on_stale_index :
  store Scenario.loadingAfterRemovals !! 4 = Some InfoLoading
  ∧ renderables Scenario.loadingAfterRemovals
    = [mkRenderable (Some 12) None 2 2; mkRenderable None None 3 4]
  ∧ renderableIndices Scenario.loadingAfterRemovals !! 3 = Some 2
  ∧ renderableOf Scenario.loadingAfterRemovals 3 = None
  ∧ promiseCallbacks Scenario.loadingAfterRemovals = [(4, Requeue 4 3)]
  ∧ requeueWhenLoaded 4 3 Scenario.loadingAfterRemovals
    = Throw TypeError Scenario.loadingAfterRemovals
  ∧ let st := settleLoad 4 (LoadOk 14) Scenario.loadingAfterRemovals in
    store st !! 4 = Some (InfoLoaded 14)
    ∧ renderableMessageQueue st = []
    ∧ promiseCallbacks st = []
    ∧ effects st = [UncaughtInPromise TypeError]
    ∧ renderables st = renderables Scenario.loadingAfterRemovals.
Proof. by vm_compute. Qed.

(** C2. The callback of a superseded load does not always give up. Entities
    5 and 6 both wait for the loading resource 4; entity 5 is then given the
    loaded resource 2, and entity 1, which sits in front of them in
    [renderables], is removed. The index of entity 5 now points at the
    placeholder of entity 6, which still carries resource id 4. When the load
    of resource 4 resolves, the callback of entity 5 therefore enqueues its
    message again, and the next frame attaches the superseded object 14 for
    entity 5, over the placeholder of entity 6. *)
Theorem C2_superseded_load_is_attached :
  renderables Scenario.supersededWhileLoading
  = [mkRenderable (Some 12) None 5 2; mkRenderable None None 6 4]
  ∧ renderableIndices Scenario.supersededWhileLoading !! 5 = Some 1
  ∧ promiseCallbacks Scenario.supersededWhileLoading
    = [(4, Requeue 4 5); (4, Requeue 4 6)]
  ∧ let st := settleLoad 4 (LoadOk 14) Scenario.supersededWhileLoading in
    renderableMessageQueue st = [AddRenderable 4 5]
    ∧ ∃ st',
        Scenario.frame st = Some (Normal st')
        ∧ renderables st'
          = [mkRenderable (Some 12) None 5 2; mkRenderable (Some 14) None 5 4]
        ∧ sceneChildren st' = [12; 14].
Proof.
  do 3 (split; [by vm_compute|]).
  split; [by vm_compute|].
  eexists. split; [by vm_compute|]. by vm_compute.
Qed.

End AttachFacts.

(** ** Loading audio data *)
Module AudioFacts.
Import Audio.

Implicit Types (w : MainThread) (a : MainAudioData) (id j : nat)
  (r : LoadResult).

(** One visit touches a resource only when it is uninitialized, and starts
    a load only then. *)
Lemma visitAudioData_other w j id a :
  resources w !! id = Some a → loadStatus a ≠ Uninitialized →
  resources (visitAudioData w j) !! id = Some a.
Proof.
  intros Ha Hst. unfold visitAudioData.
  destruct (resources w !! j) as [b|] eqn:Hb; [|done].
  case_decide as Hun; [|done]. simpl.
  destruct (decide (j = id)) as [->|Hne]; [congruence|].
  by rewrite lookup_insert_ne.
Qed.

Lemma visitAudioData_loads w j id :
  id ∈ loads (visitAudioData w j) →
  id ∈ loads w ∨ statusOf w id = Some Uninitialized.
Proof.
  unfold visitAudioData, statusOf.
  destruct (resources w !! j) as [b|] eqn:Hb; [|by left].
  case_decide as Hun; [|by left]. simpl.
  rewrite elem_of_app, list_elem_of_singleton.
  intros [?| ->]; [by left|right]. by rewrite Hb; simpl; f_equal.
Qed.

Lemma visitAudioData_keeps_loads w j id :
  id ∈ loads w → id ∈ loads (visitAudioData w j).
Proof.
  intros Hin. unfold visitAudioData.
  destruct (resources w !! j) as [b|]; [|done].
  case_decide; [|done]. simpl. apply elem_of_app. by left.
Qed.

Lemma visits_other l w id a :
  resources w !! id = Some a → loadStatus a ≠ Uninitialized →
  resources (foldl visitAudioData w l) !! id = Some a.
Proof.
  revert w. induction l as [|j l IH]; intros w Ha Hst; [done|].
  simpl. apply IH; [|done]. by apply visitAudioData_other.
Qed.

Lemma visits_loads l w id a :
  resources w !! id = Some a → loadStatus a ≠ Uninitialized →
  id ∈ loads (foldl visitAudioData w l) ↔ id ∈ loads w.
Proof.
  revert w. induction l as [|j l IH]; intros w Ha Hst; [done|].
  simpl. rewrite IH by (by try apply visitAudioData_other).
  split; [|apply visitAudioData_keeps_loads].
  intros [?|Hun]%visitAudioData_loads; [done|].
  unfold statusOf in Hun. rewrite Ha in Hun. simpl in Hun. congruence.
Qed.

Lemma visits_started l w id :
  id ∈ loads (foldl visitAudioData w l) →
  id ∈ loads w ∨ statusOf w id = Some Uninitialized.
Proof.
  revert w. induction l as [|j l IH]; intros w; [by left|].
  simpl. intros [Hin|Hun]%IH.
  - by apply visitAudioData_loads in Hin.
  - unfold statusOf in *.
    destruct (resources w !! id) as [a|] eqn:Ha.
    + destruct (decide (loadStatus a = Uninitialized)) as [Hu|Hst];
        [right; simpl; by f_equal|].
      rewrite (visitAudioData_other _ _ _ _ Ha Hst) in Hun.
      simpl in Hun. congruence.
    + unfold visitAudioData in Hun.
      destruct (resources w !! j) as [b|] eqn:Hb; [|by rewrite Ha in Hun].
      case_decide; [|by rewrite Ha in Hun]. simpl in Hun.
      destruct (decide (j = id)) as [->|Hne]; [congruence|].
      rewrite lookup_insert_ne, Ha in Hun by done. done.
Qed.

(** [updateAudioDatas] starts a load for uninitialized resources only, and
    leaves every other resource as it is. *)
Lemma updateAudioDatas_other w id a :
  resources w !! id = Some a → loadStatus a ≠ Uninitialized →
  resources (updateAudioDatas w) !! id = Some a.
Proof. apply visits_other. Qed.

Lemma updateAudioDatas_loads w id a :
  resources w !! id = Some a → loadStatus a ≠ Uninitialized →
  id ∈ loads (updateAudioDatas w) ↔ id ∈ loads w.
Proof. apply visits_loads. Qed.

Lemma updateAudioDatas_starts_only_uninitialized w id :
  id ∈ loads (updateAudioDatas w) →
  id ∈ loads w ∨ statusOf w id = Some Uninitialized.
Proof. apply visits_started. Qed.

Lemma ticks_other n w id a :
  resources w !! id = Some a → loadStatus a ≠ Uninitialized →
  resources (Nat.iter n updateAudioDatas w) !! id = Some a
  ∧ (id ∈ loads (Nat.iter n updateAudioDatas w) ↔ id ∈ loads w).
Proof.
  intros Ha Hst. induction n as [|n [IHr IHl]]; [done|]. simpl. split.
  - by apply updateAudioDatas_other.
  - by rewrite (updateAudioDatas_loads _ _ _ IHr Hst).
Qed.

Lemma settle_in_flight w id a r :
  resources w !! id = Some a → id ∈ loads w →
  resources (settle id r w) !! id = Some (onSettled r a)
  ∧ id ∉ loads (settle id r w).
Proof.
  intros Ha Hin. unfold settle. rewrite decide_True by done. rewrite Ha.
  simpl. split; [by rewrite lookup_insert_eq|].
  rewrite list_elem_of_filter. by intros [? _].
Qed.



(** C7. A load that fails leaves the resource in [Error], and that is the
    end of it: [updateAudioDatas] starts a load for an uninitialized resource
    only, so for the failed one no load is in flight after any number of
    frames, and its status stays [Error]. *)
Theorem C7_load_failure_is_terminal w id a r n :
  resources w !! id = Some a →
  id ∈ loads w →
  loadFails r →
  let w1 := settle id r w in
  let wn := Nat.iter n updateAudioDatas w1 in
  statusOf w1 id = Some Error
  ∧ statusOf wn id = Some Error
  ∧ (id ∉ loads wn)
  ∧ ∀ w' j, j ∈ loads (updateAudioDatas w') →
            j ∈ loads w' ∨ statusOf w' j = Some Uninitialized.
Proof.
  intros Ha Hin Hfails w1 wn.
  destruct (settle_in_flight _ _ _ r Ha Hin) as [Hr1 Hl1]. fold w1 in Hr1, Hl1.
  assert (onSettled r a = set_loadStatus a Error) as Hset.
  { destruct r as [d|err]; [done|]. simpl in *.
    unfold onRejected. by rewrite decide_False. }
  rewrite Hset in Hr1.
  assert (loadStatus (set_loadStatus a Error) ≠ Uninitialized) as Hne by done.
  destruct (ticks_other n _ _ _ Hr1 Hne) as [Hrn Hln]. fold wn in Hrn, Hln.
  unfold statusOf. rewrite Hr1, Hrn. simpl.
  do 2 (split; [done|]).
  split; [by rewrite Hln|].
  intros w' j. apply updateAudioDatas_starts_only_uninitialized.
Qed.


(** C7 at work: the load of resource 7 fails to decode; three frames
    later the resource is still in [Error]. *)
Lemma C7_load_failure_is_terminal_witness :
  loadFails (Rejected (mkJsError "EncodingError"))
  ∧ statusOf
      (Nat.iter 3 updateAudioDatas
         (settle 7 (Rejected (mkJsError "EncodingError")) AudioScenario.loadingAudio)) 7
    = Some Error.
Proof.
  assert (loadFails (Rejected (mkJsError "EncodingError"))) as Hfails
    by (by vm_compute).
  split; [done|].
  apply (C7_load_failure_is_terminal AudioScenario.loadingAudio 7
           (mkAudioData Loading None (Some (mkAbortController false)) 1)
           (Rejected (mkJsError "EncodingError")) 3).
  - by vm_compute.
  - apply (bool_decide_unpack _). by vm_compute.
  - exact Hfails.
Defined.

End AudioFacts.

(** ** The reliable-ordered channel *)
Module NetworkFacts.
Import Network.

Section Reliable.
Context {Payload EntityState : Type}.
Variable initial : EntityState.
Variable applyMessage : MessageKind → Payload → EntityState → EntityState.

Implicit Types (rcv : gmap nat (Applied EntityState))
  (m : NetworkMessage Payload).

Lemma receive_stale rcv m a :
  channel m = ReliableOrdered →
  rcv !! entityId m = Some a →
  sequence m ≤ lastApplied a →
  receive initial applyMessage rcv m = rcv.
Proof.
  intros Hch Ha Hle. unfold Network.receive, accepts. rewrite Ha, Hch.
  by rewrite bool_decide_eq_false_2 by lia.
Qed.

(** After a reliable message was received, its entity has applied a sequence
    number at least as large. *)
Lemma receive_reaches rcv m :
  channel m = ReliableOrdered →
  ∃ a, receive initial applyMessage rcv m !! entityId m = Some a
       ∧ sequence m ≤ lastApplied a.
Proof.
  intros Hch. unfold Network.receive, accepts. rewrite Hch.
  destruct (rcv !! entityId m) as [a|] eqn:Ha.
  - case_bool_decide as Hlt.
    + eexists. rewrite lookup_insert_eq. split; [done|]. simpl. lia.
    + exists a. split; [done|]. lia.
  - eexists. rewrite lookup_insert_eq. split; [done|]. simpl. lia.
Qed.

(** C3. On the reliable-ordered channel, a message whose sequence number is
    not greater than the one last applied for its entity leaves the receiver
    as it is; and for messages 1, 2, 3 of one entity, delivery in the order
    2, 1, 3 ends in the state that delivering 2 and 3 alone ends in. *)
Theorem C3_reliable_channel_drops_stale rcv :
  (∀ m a,
     channel m = ReliableOrdered →
     rcv !! entityId m = Some a →
     sequence m ≤ lastApplied a →
     receive initial applyMessage rcv m = rcv)
  ∧ (∀ e k1 k2 k3 p1 p2 p3,
       let m1 := mkMessage k1 e 1 ReliableOrdered p1 in
       let m2 := mkMessage k2 e 2 ReliableOrdered p2 in
       let m3 := mkMessage k3 e 3 ReliableOrdered p3 in
       deliver initial applyMessage rcv [m2; m1; m3]
       = deliver initial applyMessage rcv [m2; m3]).
Proof.
  split; [apply receive_stale|].
  intros e k1 k2 k3 p1 p2 p3 m1 m2 m3. unfold Network.deliver. simpl.
  destruct (receive_reaches rcv m2 eq_refl) as (a & Ha & Hle).
  rewrite (receive_stale (receive initial applyMessage rcv m2) m1 a); [done..|].
  simpl in *. lia.
Qed.

End Reliable.

(** C3 at work: entity 4 has applied sequence number 2; message 1 for it
    is dropped. *)
Lemma C3_reliable_channel_drops_stale_witness :
  let rcv : gmap nat (Applied (list nat)) :=
    {[ 4 := mkApplied 2 [20] ]} in
  let m := mkMessage Update 4 1 ReliableOrdered 10 in
  receive [] (λ _ p s, p :: s) rcv m = rcv.
Proof.
  intros rcv m.
  apply (C3_reliable_channel_drops_stale [] (λ _ p s, p :: s) rcv)
    with (a := mkApplied 2 [20]).
  - reflexivity.
  - by vm_compute.
  - vm_compute. lia.
Defined.

End NetworkFacts.

(** ** More on the renderable table *)
Module TableExtras.
Import JS Renderer SpliceFacts GraphFacts TableFacts.

Implicit Types (st : RenderThreadState) (e : Eid) (rid : ResourceId)
  (r : Renderable) (m : RenderableMessages).

Lemma splice_delete_one {A} i (arr : list A) :
  (splice i 1 [] arr).2 = delete i arr.
Proof.
  unfold splice; cbn [snd]. rewrite delete_take_drop, app_nil_l.
  destruct (decide (i < length arr)).
  - rewrite (Nat.min_l i), (Nat.min_l 1) by lia. by rewrite Nat.add_1_r.
  - rewrite (Nat.min_r i) by lia. rewrite Nat.sub_diag, Nat.min_0_r.
    rewrite Nat.add_0_r, firstn_all, drop_all.
    by rewrite take_ge, drop_ge by lia.
Qed.

Lemma onRemoveRenderable_table st e i :
  renderableIndices st !! e = Some i →
  renderables (onRemoveRenderable st e) = delete i (renderables st)
  ∧ renderableIndices (onRemoveRenderable st e) = delete e (renderableIndices st).
Proof.
  intros Hi. unfold onRemoveRenderable. rewrite Hi.
  pose proof (splice_delete_one i (renderables st)) as Hd.
  destruct (splice i 1 [] (renderables st)) as [removed arr]. simpl in Hd.
  subst arr. destruct removed as [|r ?]; [done|].
  by destruct (object r), (helper r).
Qed.

Lemma dispatch_other_consistent st m :
  (∀ e, m ≠ RemoveRenderable e) →
  indicesConsistent st → indicesConsistent (handle st m).
Proof.
  intros Hm Hc. destruct m as [rid e | e | e | e rid]; unfold handle; simpl.
  - by apply onAddRenderable_consistent.
  - by destruct (Hm e).
  - unfold onSetActiveCamera.
    destruct (renderableIndices st !! e) as [i|]; [|done].
    destruct (renderables st !! i) as [r|]; [|done].
    by destruct (object r).
  - unfold onSetActiveScene.
    destruct (store st !! rid) as [info|]; [|done].
    by destruct (resource info).
Qed.

(** X1. As long as no RemoveRenderable is handled, the entity table stays
    consistent: every recorded index points into [renderables], at an entry
    of its entity. *)
Theorem X1_table_consistent_without_removal st ms :
  indicesConsistent st →
  Forall (λ m, ∀ e, m ≠ RemoveRenderable e) ms →
  indicesConsistent (foldl handle st ms).
Proof.
  intros Hc Hms. revert st Hc.
  induction Hms as [|m ms Hm _ IH]; intros st Hc; [done|].
  simpl. by apply IH, dispatch_other_consistent.
Qed.

(** X1 at work: three additions and a camera change on the created state. *)
Lemma X1_table_consistent_without_removal_witness :
  indicesConsistent
    (foldl handle Scenario.start
       [AddRenderable 1 1; AddRenderable 4 2; SetActiveCamera 1;
        AddRenderable 2 1]).
Proof.
  apply (X1_table_consistent_without_removal Scenario.start).
  - apply create_consistent.
  - repeat constructor; by intros ?.
Defined.

(** X2. [onRemoveRenderable] takes the entry at the entity's recorded index
    out of [renderables] (nothing, when the index lies past the end),
    forgets the entity's index, and leaves the index of every other entity
    as it was recorded, although the entries behind the removed one have
    moved down by one. *)
Theorem X2_removal_keeps_other_indices st e i :
  renderableIndices st !! e = Some i →
  let st' := onRemoveRenderable st e in
  renderables st' = delete i (renderables st)
  ∧ renderableIndices st' !! e = None
  ∧ (∀ e', e' ≠ e → renderableIndices st' !! e' = renderableIndices st !! e')
  ∧ (∀ j, i ≤ j → renderables st' !! j = renderables st !! S j)
  ∧ (∀ j, j < i → renderables st' !! j = renderables st !! j).
Proof.
  intros Hi st'. subst st'.
  destruct (onRemoveRenderable_table st e i Hi) as [-> ->].
  unfold Eid in *.
  split; [done|]. split; [apply lookup_delete_eq|].
  split; [intros e' Hne; by apply lookup_delete_ne|].
  split; intros j Hj; [by apply list_lookup_delete_ge | by apply list_lookup_delete_lt].
Qed.

(** X2 at work: entity 1 sits at index 0. *)
Lemma X2_removal_keeps_other_indices_witness :
  renderableIndices
    (onRemoveRenderable
       (foldl handle Scenario.start [AddRenderable 1 1; AddRenderable 2 2]) 1) !! 2
  = renderableIndices
      (foldl handle Scenario.start [AddRenderable 1 1; AddRenderable 2 2]) !! 2.
Proof.
  refine (proj1 (proj2 (proj2 (X2_removal_keeps_other_indices
            (foldl handle Scenario.start [AddRenderable 1 1; AddRenderable 2 2])
            1 0 _))) 2 _).
  - by vm_compute.
  - lia.
Defined.

(** X3. Removing the entity whose entry is the last one of [renderables]
    keeps the table consistent. *)
Theorem X3_removal_of_last_entry_keeps_consistency st e i :
  indicesConsistent st →
  renderableIndices st !! e = Some i →
  S i = length (renderables st) →
  indicesConsistent (onRemoveRenderable st e).
Proof.
  intros Hc Hi Hlast e' j.
  destruct (onRemoveRenderable_table st e i Hi) as [-> ->].
  unfold Eid in *. rewrite lookup_delete.
  case_decide as Hee; [done|]. intros Hj.
  destruct (Hc _ _ Hj) as (r & Hr & Hre).
  destruct (Hc _ _ Hi) as (r0 & Hr0 & Hre0).
  assert (j ≠ i) by (intros ->; congruence).
  pose proof (lookup_lt_Some _ _ _ Hr).
  exists r. split; [|done]. rewrite list_lookup_delete_lt by lia. done.
Qed.

(** X3 at work: entity 2 was added last. *)
Lemma X3_removal_of_last_entry_keeps_consistency_witness :
  indicesConsistent
    (onRemoveRenderable
       (foldl handle Scenario.start [AddRenderable 1 1; AddRenderable 2 2]) 2).
Proof.
  apply (X3_removal_of_last_entry_keeps_consistency _ 2 1).
  - simpl. do 2 apply onAddRenderable_consistent. apply create_consistent.
  - by vm_compute.
  - by vm_compute.
Defined.

End TableExtras.

(** ** More on attaching and removing *)
Module AttachExtras.
Import JS Renderer SpliceFacts GraphFacts TableFacts AttachFacts.

Implicit Types (st : RenderThreadState) (e : Eid) (rid : ResourceId)
  (r : Renderable) (m : RenderableMessages) (o : Obj).

Lemma onAddRenderable_table st rid e info :
  indicesConsistent st →
  store st !! rid = Some info → state info ≠ Error →
  let st' := onAddRenderable st rid e in
  match renderableIndices st !! e with
  | Some i =>
      renderables st' = <[i := mkRenderable (resource info) None e rid]> (renderables st)
      ∧ renderableIndices st' = renderableIndices st
  | None =>
      renderables st' = renderables st ++ [mkRenderable (resource info) None e rid]
      ∧ renderableIndices st'
        = <[e := length (renderables st)]> (renderableIndices st)
  end.
Proof.
  intros Hc Hstore Hinfo st'. subst st'. unfold onAddRenderable.
  rewrite Hstore.
  destruct (renderableIndices st !! e) as [i|] eqn:Hi.
  - destruct (Hc _ _ Hi) as (prev & Hprev & _).
    destruct info as [| o | err]; [| |done];
      rewrite (splice_replace_at _ _ _ _ Hprev); cbn [removeDisplaced];
      by destruct (object prev).
  - by destruct info as [| o | err].
Qed.

(** X4. On a consistent table, AddRenderable for a loaded resource makes
    the entity's entry carry the resource id and the object, leaves what
    every other entity has as it was, puts the object into the scene (unless
    it is the scene itself), takes the object the entity had before out of
    it, and keeps the table consistent. *)
Theorem X4_loaded_resource_replaces_in_place st rid e o :
  indicesConsistent st →
  store st !! rid = Some (InfoLoaded o) →
  let st' := onAddRenderable st rid e in
  renderableOf st' e = Some (mkRenderable (Some o) None e rid)
  ∧ (∀ e', e' ≠ e → renderableOf st' e' = renderableOf st e')
  ∧ (o ≠ scene st → o ∈ sceneChildren st')
  ∧ (∀ r old, renderableOf st e = Some r → object r = Some old → old ≠ o →
       NoDup (sceneChildren st) → old ∉ sceneChildren st')
  ∧ indicesConsistent st'.
Proof.
  intros Hc Hstore st'.
  destruct (onAddRenderable_loaded st rid e o Hc Hstore) as (He & Hin & Hold).
  split; [done|]. split; [|split; [done|split; [done|]]].
  - intros e' Hne.
    assert (state (InfoLoaded o) ≠ Error) as Hok by done.
    pose proof (onAddRenderable_table st rid e _ Hc Hstore Hok) as Ht.
    fold st' in Ht. unfold renderableOf. cbn zeta in Ht.
    destruct (renderableIndices st !! e) as [i|] eqn:Hi.
    + destruct Ht as [-> ->].
      destruct (renderableIndices st !! e') as [j|] eqn:Hj; [|done]. simpl.
      rewrite list_lookup_insert_ne; [done|]. intros ->.
      destruct (Hc _ _ Hi) as (r1 & Hr1 & He1).
      destruct (Hc _ _ Hj) as (r2 & Hr2 & He2). congruence.
    + destruct Ht as [-> ->].
      assert (<[e:=length (renderables st)]> (renderableIndices st) !! e'
              = renderableIndices st !! e') as ->
        by (unfold Eid in *; by rewrite lookup_insert_ne).
      destruct (renderableIndices st !! e') as [j|] eqn:Hj; [|done]. simpl.
      destruct (Hc _ _ Hj) as (r2 & Hr2 & _).
      by rewrite (lookup_app_l_Some _ _ _ _ Hr2).
  - by apply onAddRenderable_consistent.
Qed.

(** X4 at work: entity 1 goes from resource 1 to resource 2. *)
Lemma X4_loaded_resource_replaces_in_place_witness :
  renderableOf
    (onAddRenderable (handle Scenario.start (AddRenderable 1 1)) 2 1) 1
  = Some (mkRenderable (Some 12) None 1 2).
Proof.
  apply (X4_loaded_resource_replaces_in_place
           (handle Scenario.start (AddRenderable 1 1)) 2 1 12).
  - apply onAddRenderable_consistent, create_consistent.
  - by vm_compute.
Defined.

(** X5. On a consistent table, AddRenderable for a resource that is still
    loading makes a placeholder the entity's entry, attaches one callback to
    the load and leaves the queue alone; if the load resolves before
    anything else is handled, the callback enqueues the same message once,
    and handling that message attaches the loaded object as the entity's
    entry. *)
Theorem X5_loading_resource_attached_on_resolution st rid e o :
  indicesConsistent st →
  store st !! rid = Some InfoLoading →
  callbacksOf rid (promiseCallbacks st) = [] →
  let st1 := onAddRenderable st rid e in
  let st2 := settleLoad rid (LoadOk o) st1 in
  renderableOf st1 e = Some (mkRenderable None None e rid)
  ∧ promiseCallbacks st1 = promiseCallbacks st ++ [(rid, Requeue rid e)]
  ∧ renderableMessageQueue st1 = renderableMessageQueue st
  ∧ renderableMessageQueue st2
    = renderableMessageQueue st ++ [AddRenderable rid e]
  ∧ renderableOf (onAddRenderable st2 rid e) e
    = Some (mkRenderable (Some o) None e rid).
Proof.
  intros Hc Hstore Hnone st1 st2.
  destruct (onAddRenderable_loading st rid e Hc Hstore)
    as (Hentry & Hcbs & Hq & Hreq).
  destruct (HandlerFacts.onAddRenderable_loading_always st rid e Hstore)
    as (_ & _ & _ & _ & Hst).
  fold st1 in Hentry, Hcbs, Hq, Hreq, Hst.
  do 3 (split; [done|]).
  assert (st2 = enqueue (AddRenderable rid e)
                  (set_promiseCallbacks
                     (set_store st1 (<[rid := InfoLoaded o]> (store st1)))
                     (callbacksNotOf rid (promiseCallbacks st1)))) as Hst2.
  { unfold st2, settleLoad. rewrite Hst, Hstore. cbn [settledInfo promiseCallbacks set_store].
    unfold callbacksOf at 1. rewrite Hcbs, filter_app.
    fold (callbacksOf rid (promiseCallbacks st)) in *.
    unfold callbacksOf in Hnone.
    rewrite fmap_app, Hnone. rewrite filter_cons, decide_True by done.
    simpl. unfold requeueWhenLoaded, renderableOf in *. simpl.
    destruct (renderableIndices st1 !! e) as [i|]; [|done].
    simpl in Hentry. rewrite Hentry. simpl.
    by rewrite decide_False by (by intros ?). }
  split; [by rewrite Hst2; simpl; rewrite Hq|].
  apply onAddRenderable_loaded.
  - rewrite Hst2. intros e' j. simpl.
    by apply (onAddRenderable_consistent st rid e Hc).
  - rewrite Hst2. simpl. unfold ResourceId in *. by rewrite lookup_insert_eq.
Qed.

(** X5 at work: entity 3 asks for the loading resource 4 on the created
    state. *)
Lemma X5_loading_resource_attached_on_resolution_witness :
  renderableMessageQueue
    (settleLoad 4 (LoadOk 14) (onAddRenderable Scenario.start 4 3))
  = renderableMessageQueue Scenario.start ++ [AddRenderable 4 3].
Proof.
  refine (proj1 (proj2 (proj2 (proj2
    (X5_loading_resource_attached_on_resolution Scenario.start 4 3 14 _ _ _))))).
  - apply create_consistent.
  - by vm_compute.
  - by vm_compute.
Defined.

End AttachExtras.

(** ** How the handlers compose *)
Module ComposeExtras.
Import JS Renderer SpliceFacts GraphFacts TableFacts AttachFacts QueueFacts.

Implicit Types (st : RenderThreadState) (e : Eid) (rid : ResourceId)
  (r : Renderable) (m : RenderableMessages) (o : Obj).



Lemma removeFirst_absent x (l : list Obj) : x ∉ l → removeFirst x l = l.
Proof.
  induction l as [|y l IH]; simpl; [done|].
  intros [Hy Hl]%not_elem_of_cons.
  rewrite decide_False by done. by rewrite IH.
Qed.

Lemma removeFirst_app_last x (l : list Obj) : x ∉ l → removeFirst x (l ++ [x]) = l.
Proof.
  induction l as [|y l IH]; simpl; [by rewrite decide_True|].
  intros [Hy Hl]%not_elem_of_cons.
  rewrite decide_False by done. by rewrite IH.
Qed.

Lemma childrenOf_remove_self self x g :
  childrenOf (remove self x g) self = removeFirst x (childrenOf g self).
Proof.
  unfold remove. case_decide as Hin.
  - by rewrite childrenOf_insert, decide_True.
  - by rewrite removeFirst_absent.
Qed.

Lemma childrenOf_add_self self x g :
  x ≠ self → parent g !! x = None →
  childrenOf (add self x g) self = childrenOf g self ++ [x].
Proof.
  intros Hne Hp. unfold add. rewrite decide_False by done. rewrite Hp.
  by rewrite childrenOf_insert, decide_True.
Qed.

(** X8. Adding a renderable for an entity that has none and removing it
    again gives back [renderables] and [renderableIndices]; when the
    resource was loaded with an object that was not in the scene and had no
    parent, the scene's children are back as well. *)
Theorem X8_add_then_remove_restores_table st rid e info :
  renderableIndices st !! e = None →
  store st !! rid = Some info → state info ≠ Error →
  let st' := onRemoveRenderable (onAddRenderable st rid e) e in
  renderables st' = renderables st
  ∧ renderableIndices st' = renderableIndices st
  ∧ (∀ o, resource info = Some o → o ≠ scene st →
       o ∉ sceneChildren st → parent (graph st) !! o = None →
       sceneChildren st' = sceneChildren st).
Proof.
  intros Hnone Hstore Hinfo st'. subst st'.
  unfold onAddRenderable. rewrite Hstore, Hnone.
  assert (∀ entry : Renderable,
            splice (length (renderables st)) 1 [] (renderables st ++ [entry])
            = ([entry], renderables st)) as Hsplice.
  { intros entry.
    assert ((renderables st ++ [entry]) !! length (renderables st) = Some entry)
      as Hlast by (by rewrite lookup_app_r, Nat.sub_diag).
    rewrite (surjective_pairing (splice _ 1 [] _)).
    rewrite (splice_one_removed _ _ _ _ Hlast), TableExtras.splice_delete_one.
    rewrite delete_take_drop, take_app_length.
    by rewrite drop_ge, app_nil_r by (rewrite length_app; simpl; lia). }
  destruct info as [| o | err]; [| |done]; unfold onRemoveRenderable; cbn;
    unfold Eid in *; rewrite lookup_insert_eq, Hsplice; cbn;
    rewrite delete_insert_id by done.
  - do 2 (split; [done|]). by intros ? [=].
  - do 2 (split; [done|]).
    intros o' [= <-] Hscene Hnotin Hparent. unfold sceneChildren. cbn.
    rewrite childrenOf_remove_self, childrenOf_add_self by done.
    by apply removeFirst_app_last.
Qed.

(** X8 at work: entity 1 with the loaded resource 1 on the created state. *)
Lemma X8_add_then_remove_restores_table_witness :
  renderables (onRemoveRenderable (onAddRenderable Scenario.start 1 1) 1)
  = renderables Scenario.start.
Proof.
  apply (X8_add_then_remove_restores_table Scenario.start 1 1 (InfoLoaded 11)).
  - by vm_compute.
  - by vm_compute.
  - by vm_compute.
Defined.

(** X9. No handler changes the resource store or the message queue, and
    whatever callbacks are pending stay pending, in order, in front of any
    the handler attaches. *)
Theorem X9_handlers_leave_store_and_queue st m :
  store (handle st m) = store st
  ∧ renderableMessageQueue (handle st m) = renderableMessageQueue st
  ∧ promiseCallbacks st `prefix_of` promiseCallbacks (handle st m)
  ∧ effects st `prefix_of` effects (handle st m).
Proof.
  assert (∀ removed s,
            store (removeDisplaced removed s) = store s
            ∧ renderableMessageQueue (removeDisplaced removed s)
              = renderableMessageQueue s
            ∧ promiseCallbacks (removeDisplaced removed s) = promiseCallbacks s
            ∧ effects (removeDisplaced removed s) = effects s) as Hrd.
  { intros [|r ?] s; [done|]. simpl. by destruct (object r). }
  destruct m as [rid e | e | e | e rid]; unfold handle; simpl.
  - unfold onAddRenderable.
    destruct (store st !! rid) as [[| o | err]|];
      [| | by repeat split; try apply prefix_app_r..].
    + destruct (renderableIndices st !! e) as [i|];
        [|by repeat split; try apply prefix_app_r].
      destruct (splice i 1 _ (renderables st)) as [removed arr]. cbn.
      destruct (Hrd removed (set_renderables st arr)) as (-> & -> & -> & ->).
      by repeat split; try apply prefix_app_r.
    + destruct (renderableIndices st !! e) as [i|]; [|done].
      destruct (splice i 1 _ (renderables st)) as [removed arr]. cbn.
      by destruct (Hrd removed (set_renderables st arr)) as (-> & -> & -> & ->).
  - unfold onRemoveRenderable.
    destruct (renderableIndices st !! e) as [i|]; [|done].
    destruct (splice i 1 _ (renderables st)) as [removed arr].
    destruct removed as [|r ?]; [done|].
    by destruct (object r), (helper r).
  - unfold onSetActiveCamera.
    destruct (renderableIndices st !! e) as [i|]; [|done].
    destruct (renderables st !! i) as [r|]; [|done].
    by destruct (object r).
  - unfold onSetActiveScene.
    destruct (store st !! rid) as [info|];
      [|by repeat split; try apply prefix_app_r].
    destruct (resource info); [done|].
    by repeat split; try apply prefix_app_r.
Qed.

(** X10. Making an entity the active camera right after its renderable was
    added (on a consistent table) sets the camera to the loaded object; when
    the resource is still loading, the entry has no object yet and the
    handler throws a TypeError without changing anything. *)
Theorem X10_camera_after_add st rid e info :
  indicesConsistent st →
  store st !! rid = Some info → state info ≠ Error →
  let st' := onAddRenderable st rid e in
  onSetActiveCamera st' e
  = match resource info with
    | Some o => Normal (set_camera st' o)
    | None => Throw TypeError st'
    end.
Proof.
  intros Hc Hstore Hinfo st'.
  assert (renderableOf st' e = Some (mkRenderable (resource info) None e rid))
    as Hnow.
  { destruct info as [| o | err]; [| |done].
    - by apply onAddRenderable_loading.
    - by apply onAddRenderable_loaded. }
  unfold renderableOf in Hnow. unfold onSetActiveCamera.
  destruct (renderableIndices st' !! e) as [i|]; [|done]. simpl in Hnow.
  rewrite Hnow. simpl. by destruct (resource info).
Qed.

(** X10 at work: entity 3 with the loading resource 4. *)
Lemma X10_camera_after_add_witness :
  onSetActiveCamera (onAddRenderable Scenario.start 4 3) 3
  = Throw TypeError (onAddRenderable Scenario.start 4 3).
Proof.
  apply (X10_camera_after_add Scenario.start 4 3 InfoLoading).
  - apply create_consistent.
  - by vm_compute.
  - by vm_compute.
Defined.

Lemma runInOrder_without_camera ms st :
  Forall (λ m, ∀ e, m ≠ SetActiveCamera e) ms →
  runInOrder st ms = (Normal (foldl handle st ms), []).
Proof.
  intros Hms. revert st. induction Hms as [|m ms Hm _ IH]; intros st; [done|].
  simpl. unfold handle at 2.
  destruct m as [rid e | e | e | e rid]; simpl; try apply IH.
  by destruct (Hm e).
Qed.

(** X13. A frame whose queue holds no SetActiveCamera message cannot throw:
    with fuel for every queued message it returns normally, having handled
    all of them in order and emptied the queue before it swaps the read
    buffer and renders. *)
Theorem X13_frame_completes_without_camera_messages st fuel :
  length (renderableMessageQueue st) ≤ fuel →
  Forall (λ m, ∀ e, m ≠ SetActiveCamera e) (renderableMessageQueue st) →
  onUpdate fuel st
  = Some (Normal (finishFrame (scene st) (camera st)
                    (set_renderableMessageQueue
                       (foldl handle st (renderableMessageQueue st)) []))).
Proof.
  intros Hfuel Hq. unfold onUpdate.
  rewrite processRenderableMessages_runInOrder by done.
  by rewrite runInOrder_without_camera.
Qed.

(** X13 at work: two additions and a removal queued on the created state. *)
Lemma X13_frame_completes_without_camera_messages_witness :
  ∃ st', onUpdate 3 (foldl onRenderableMessage Scenario.start
                       [AddRenderable 1 1; AddRenderable 4 2; RemoveRenderable 1])
         = Some (Normal st').
Proof.
  eexists.
  apply (X13_frame_completes_without_camera_messages
           (foldl onRenderableMessage Scenario.start
              [AddRenderable 1 1; AddRenderable 4 2; RemoveRenderable 1]) 3).
  - vm_compute. lia.
  - repeat constructor; by intros ?.
Defined.

End ComposeExtras.

(** ** The scene *)
Module SceneExtras.
Import JS Renderer RendererViews SpliceFacts GraphFacts TableFacts HandlerFacts.
Import ComposeExtras.

Implicit Types (st : RenderThreadState) (e : Eid) (rid : ResourceId)
  (m : RenderableMessages) (o : Obj) (g : Graph).

Lemma dropWarning_handle st m w :
  dropWarning st m = Some w → handle st m = emit w st.
Proof.
  destruct m as [rid e | e | e | e rid]; [|done..]. unfold handle. simpl.
  unfold onAddRenderable.
  destruct (store st !! rid) as [[| o | err]|]; [done|done| |]; by intros [= <-].
Qed.

(** X7. Messages about resources that are not in the store, or whose load
    failed, are dropped one by one: handling any run of them changes nothing
    but the log, which gets one warning per message, in order. *)
Theorem X7_unattachable_messages_only_warn st ms :
  Forall (λ m, is_Some (dropWarning st m)) ms →
  foldl handle st ms = set_effects st (effects st ++ omap (dropWarning st) ms).
Proof.
  intros Hms.
  assert (∀ fx, foldl handle (set_effects st fx) ms
                = set_effects st (fx ++ omap (dropWarning st) ms)) as Hgen.
  { induction Hms as [|m ms [w Hw] _ IH]; intros fx; simpl.
    - by rewrite app_nil_r.
    - rewrite Hw.
      assert (dropWarning (set_effects st fx) m = Some w) as Hw' by done.
      rewrite (dropWarning_handle _ _ _ Hw'). unfold emit. simpl.
      change (set_effects (set_effects st fx) (fx ++ [w]))
        with (set_effects st (fx ++ [w])).
      rewrite IH. by rewrite <- app_assoc. }
  specialize (Hgen (effects st)).
  by replace (set_effects st (effects st)) with st in Hgen by (by destruct st).
Qed.

(** X7 at work: resource 9 is unknown on the created state. *)
Lemma X7_unattachable_messages_only_warn_witness :
  foldl handle Scenario.start [AddRenderable 9 1; AddRenderable 9 2]
  = set_effects Scenario.start
      (effects Scenario.start
       ++ omap (dropWarning Scenario.start) [AddRenderable 9 1; AddRenderable 9 2]).
Proof.
  apply (X7_unattachable_messages_only_warn Scenario.start).
  repeat (apply Forall_cons_2; [eexists; reflexivity|]). apply Forall_nil_2.
Defined.

Lemma removeFirst_middle x (p r : list Obj) :
  x ∉ p → removeFirst x (p ++ x :: r) = p ++ r.
Proof.
  induction p as [|y p IH]; simpl; [by rewrite decide_True|].
  intros [Hy Hp]%not_elem_of_cons.
  rewrite decide_False by done. by rewrite IH.
Qed.

Lemma everyOther_cons {A} (x : A) l :
  everyOther (x :: l) = x :: everyOther (tail l).
Proof. by destruct l. Qed.

(** One step of the loop of [setScene] on a linked graph: the child leaves
    the old scene and lands at the end of the new one. *)
Lemma add_moves_child old new c g (p r : list Obj) :
  linked g → new ≠ old → c ≠ new →
  childrenOf g old = p ++ c :: r →
  childrenOf (add new c g) old = p ++ r
  ∧ childrenOf (add new c g) new = childrenOf g new ++ [c].
Proof.
  intros [Hnd Hlink] Hno Hcn Hold.
  assert (c ∈ childrenOf g old) as Hin
    by (rewrite Hold; apply elem_of_app; right; by left).
  assert (c ∉ p) as Hp.
  { pose proof (Hnd old) as Hn. rewrite Hold in Hn.
    apply NoDup_app in Hn as (_ & Hn & _). intros Hcp.
    apply (Hn c Hcp). by left. }
  unfold add. rewrite decide_False by done. rewrite (Hlink _ _ Hin).
  rewrite !childrenOf_insert. rewrite decide_False by done.
  rewrite decide_True by done.
  rewrite childrenOf_remove_self, Hold.
  split; [by apply removeFirst_middle|].
  f_equal. unfold remove. rewrite decide_True by done.
  rewrite childrenOf_insert. by rewrite decide_False by done.
Qed.

Lemma adoptChildren_done n i old new g :
  length (childrenOf g old) ≤ i → adoptChildren n i old new g = g.
Proof.
  intros Hlen. destruct n as [|n]; [done|]. simpl.
  by rewrite lookup_ge_None_2.
Qed.

Lemma adoptChildren_every_other n i old new g (p r : list Obj) :
  linked g → new ≠ old →
  childrenOf g old = p ++ r → length p = i → new ∉ r → length r ≤ n →
  childrenOf (adoptChildren n i old new g) old = p ++ everyOther (tail r)
  ∧ childrenOf (adoptChildren n i old new g) new
    = childrenOf g new ++ everyOther r.
Proof.
  revert i g p r. induction n as [|n IH]; intros i g p r Hl Hno Hold Hi Hnew Hlen.
  - destruct r; [|simpl in Hlen; lia]. simpl. by rewrite Hold, !app_nil_r.
  - destruct r as [|c r].
    + rewrite adoptChildren_done by (rewrite Hold, app_nil_r; lia).
      simpl. by rewrite Hold, !app_nil_r.
    + simpl. rewrite Hold. rewrite lookup_app_r by lia.
      replace (i - length p) with 0 by lia. simpl.
      apply not_elem_of_cons in Hnew as [Hcn Hnew].
      destruct (add_moves_child old new c g p r Hl Hno (not_eq_sym Hcn) Hold)
        as [Hold' Hnew'].
      destruct r as [|d r].
      * rewrite adoptChildren_done by (rewrite Hold', app_nil_r; lia).
        simpl. by rewrite Hold', Hnew'.
      * apply not_elem_of_cons in Hnew as [Hdn Hnew].
        destruct (IH (S i) (add new c g) (p ++ [d]) r) as [Ho Hn];
          [by apply add_linked | done | by rewrite Hold', <- app_assoc
          | rewrite length_app; simpl; lia | done | simpl in Hlen; lia |].
        rewrite Ho, Hn, Hnew'.
        change (tail (c :: d :: r)) with (d :: r).
        change (everyOther (c :: d :: r)) with (c :: everyOther r).
        rewrite everyOther_cons. by rewrite <- !app_assoc.
Qed.

(** X11. [setScene] hands over only every other child. On a linked graph,
    making another object the scene, one that is not a child of the current
    scene, moves the children at positions 0, 2, 4, ... of the current scene
    to the end of the new scene's children; the ones at positions 1, 3, 5, ...
    stay behind in the old scene. *)
Theorem X11_setScene_moves_every_other_child st new :
  linked (graph st) →
  new ≠ scene st →
  new ∉ sceneChildren st →
  let st' := setScene new st in
  scene st' = new
  ∧ sceneChildren st' = childrenOf (graph st) new ++ everyOther (sceneChildren st)
  ∧ childrenOf (graph st') (scene st) = everyOther (tail (sceneChildren st))
  ∧ linked (graph st').
Proof.
  intros Hl Hne Hnew st'.
  destruct (adoptChildren_every_other (length (sceneChildren st)) 0
              (scene st) new (graph st) [] (sceneChildren st))
    as [Hold Hn]; [done..|].
  split; [done|]. split; [apply Hn|]. split; [apply Hold|].
  by apply adoptChildren_linked.
Qed.

(** X11 at work: objects 11, 12 and 13 are in scene 100, and object 200
    becomes the scene: 11 and 13 move over, 12 stays behind. *)
Lemma X11_setScene_moves_every_other_child_witness :
  sceneChildren
    (setScene 200
       (foldl handle Scenario.start
          [AddRenderable 1 1; AddRenderable 2 2; AddRenderable 3 3]))
  = [11; 13].
Proof.
  refine (proj1 (proj2 (X11_setScene_moves_every_other_child
            (foldl handle Scenario.start
               [AddRenderable 1 1; AddRenderable 2 2; AddRenderable 3 3])
            200 _ _ _))).
  - simpl. do 3 apply onAddRenderable_linked.
    split; [intros p; apply NoDup_nil_2 | intros p o Hin; by apply not_elem_of_nil in Hin].
  - by vm_compute.
  - apply (bool_decide_unpack _). by vm_compute.
Defined.

(** X12. The handlers keep the object graph linked: starting from a linked
    graph, after any run of messages no object is listed twice among the
    children of another, so in particular the scene holds every object at
    most once, and every listed child points back at its parent. *)
Theorem X12_graph_stays_linked st ms :
  linked (graph st) →
  linked (graph (foldl handle st ms))
  ∧ NoDup (sceneChildren (foldl handle st ms)).
Proof.
  intros Hl.
  assert (linked (graph (foldl handle st ms))) as Hl'.
  { revert st Hl. induction ms as [|m ms IH]; intros st Hl; [done|].
    simpl. by apply IH, handle_linked. }
  split; [done|]. apply Hl'.
Qed.

(** X12 at work: the graph of the created state is empty. *)
Lemma X12_graph_stays_linked_witness :
  NoDup (sceneChildren
           (foldl handle Scenario.start
              [AddRenderable 1 1; AddRenderable 1 2; RemoveRenderable 1;
               SetActiveScene 7 2])).
Proof.
  apply (X12_graph_stays_linked Scenario.start).
  split; [intros p; apply NoDup_nil_2 | intros p o Hin; by apply not_elem_of_nil in Hin].
Defined.

End SceneExtras.

(** ** The staleness counters *)
Module StatsExtras.
Import Stats.

Implicit Types (stats : StatsModuleState) (swaps : list bool).

Lemma afterFrames_app stats swaps swaps' :
  afterFrames stats (swaps ++ swaps') = afterFrames (afterFrames stats swaps) swaps'.
Proof. apply foldl_app. Qed.

Lemma afterFrames_stale stats n :
  afterFrames stats (replicate n false)
  = mkStats (staleTripleBufferCounter stats + n) (staleFrameCounter stats).
Proof.
  revert stats. induction n as [|n IH]; intros stats; simpl.
  - rewrite Nat.add_0_r. by destruct stats.
  - unfold afterFrames in *. rewrite IH. simpl. f_equal. lia.
Qed.

(** X14. After any run of frames that ends with [n] frames in which the
    read buffer was not swapped, coming right after a frame in which it was,
    [staleTripleBufferCounter] is [n]: it counts the frames since the last
    swap. A swap that comes after more than one such frame adds one to
    [staleFrameCounter]; a swap after none or one leaves it alone. *)
Theorem X14_stale_counter_counts_frames_since_swap stats swaps n :
  let before := afterFrames stats (swaps ++ [true]) in
  let stale := afterFrames before (replicate n false) in
  staleTripleBufferCounter stale = n
  ∧ staleFrameCounter stale = staleFrameCounter before
  ∧ afterFrames stale [true]
    = mkStats 0 (if bool_decide (1 < n) then S (staleFrameCounter before)
                 else staleFrameCounter before).
Proof.
  intros before stale.
  assert (staleTripleBufferCounter before = 0) as H0.
  { unfold before. rewrite afterFrames_app. done. }
  unfold stale. rewrite afterFrames_stale, H0. simpl.
  split; [done|]. split; [done|]. done.
Qed.

(** X15. [staleFrameCounter] never goes down, and over any run of frames it
    grows by no more than the number of frames in which the buffer was
    swapped. *)
Theorem X15_stale_frames_bounded_by_swaps stats swaps :
  staleFrameCounter stats ≤ staleFrameCounter (afterFrames stats swaps)
  ∧ staleFrameCounter (afterFrames stats swaps)
    ≤ staleFrameCounter stats + length (filter (λ b, b = true) swaps).
Proof.
  revert stats. induction swaps as [|b swaps IH]; intros stats; simpl; [lia|].
  destruct (IH (countStaleness stats b)) as [Hlo Hhi].
  unfold afterFrames in *.
  rewrite filter_cons. destruct b; simpl in *.
  - case_bool_decide; simpl in *; lia.
  - lia.
Qed.

End StatsExtras.

(** ** The MIME type of an audio file *)
Module MimeExtras.
Import AudioMime.

Lemma split_nonempty sep s : split sep s ≠ [].
Proof.
  destruct s as [|c s]; simpl; [done|].
  destruct (Ascii.eqb c sep); [done|]. by destruct (split sep s).
Qed.

Lemma split_without_separator sep s :
  hasChar sep s = false → split sep s = [s].
Proof.
  induction s as [|c s IH]; simpl; [done|].
  intros [Hc Hs]%orb_false_iff. rewrite Hc. by rewrite IH.
Qed.

Lemma last_split_append sep base ext :
  hasChar sep ext = false →
  last (split sep (base +:+ String sep ext)) = Some ext.
Proof.
  intros Hext. induction base as [|c base IH]; simpl.
  - rewrite Ascii.eqb_refl. rewrite split_without_separator by done. done.
  - destruct (Ascii.eqb c sep).
    + rewrite last_cons. simpl in IH. by rewrite IH.
    + pose proof (split_nonempty sep (base +:+ String sep ext)) as Hne.
      simpl in IH.
      destruct (split sep (base +:+ String sep ext)) as [|piece pieces] eqn:Hsp;
        [done|].
      destruct pieces as [|p2 pieces]; [|by rewrite !last_cons_cons in *].
      simpl in *. injection IH as ->.
      (* the last piece is the only piece: the separator was never seen *)
      exfalso. clear -Hsp Hext.
      assert (∀ t, hasChar sep t = true → 2 ≤ length (split sep t)) as Hlen.
      { induction t as [|c t IHt]; simpl; [done|].
        destruct (Ascii.eqb c sep) eqn:Hc; simpl.
        - intros _. pose proof (split_nonempty sep t).
          destruct (split sep t); [done|simpl; lia].
        - intros Ht. specialize (IHt Ht).
          destruct (split sep t) as [|? [|? ?]]; simpl in *; lia. }
      assert (hasChar sep (base +:+ String sep ext) = true) as Hhas.
      { clear. induction base as [|c base IH]; simpl.
        - by rewrite Ascii.eqb_refl.
        - by rewrite IH, orb_true_r. }
      apply Hlen in Hhas. rewrite Hsp in Hhas. simpl in Hhas. lia.
Qed.

End MimeExtras.

Module MimeTheorems.
Import AudioMime MimeExtras.

(** X16. The extension [getAudioMimeType] goes by is what follows the last
    dot of the uri, and the whole uri when it has no dot; so for each of the
    eight extensions of the table, every uri ending in a dot and that
    extension gets the MIME type the table gives. *)
Theorem X16_mime_type_by_extension base ext :
  hasChar "." ext = false →
  extension (base +:+ "." +:+ ext) = ext
  ∧ extension ext = ext
  ∧ ∀ mime, (ext, mime) ∈ audioExtensionToMimeType →
      getAudioMimeType (base +:+ "." +:+ ext) = Mime mime.
Proof.
  intros Hext.
  assert (extension (base +:+ "." +:+ ext) = ext) as Hbase
    by (unfold extension;
        change (base +:+ "." +:+ ext) with (base +:+ String "."%char ext);
        by rewrite (last_split_append "."%char base ext)).
  split; [done|]. split.
  - unfold extension. by rewrite split_without_separator.
  - intros mime Hin. unfold getAudioMimeType. rewrite Hbase.
    unfold audioExtensionToMimeType in Hin.
    repeat (apply elem_of_cons in Hin as [[= -> ->]|Hin]; [done|]).
    by apply not_elem_of_nil in Hin.
Qed.

(** X16 at work: a file name ending in [.ogg]. *)
Lemma X16_mime_type_by_extension_witness :
  getAudioMimeType "sounds/door.v2.ogg" = Mime "audio/ogg".
Proof.
  refine (proj2 (proj2 (X16_mime_type_by_extension "sounds/door.v2" "ogg" _))
            "audio/ogg" _).
  - reflexivity.
  - apply (bool_decide_unpack _). by vm_compute.
Defined.

(** X17. Whatever the uri, [getAudioMimeType] returns one of the five MIME
    types of the table, [audio/mpeg] when the extension is not in it; the
    one exception is an extension that names a property of
    [Object.prototype], for which the lookup returns that property instead
    of a string. *)
Theorem X17_mime_type_range uri :
  match getAudioMimeType uri with
  | Mime mime =>
      mime ∈ ["audio/mpeg"; "audio/ogg"; "audio/wav"; "audio/flac";
              "audio/mp4"; "audio/webm"]
      ∧ (ownProperty audioExtensionToMimeType (extension uri) = None →
         mime = "audio/mpeg")
  | Inherited key => key = extension uri ∧ key ∈ objectPrototypeKeys
  end.
Proof.
  unfold getAudioMimeType.
  destruct (ownProperty audioExtensionToMimeType (extension uri)) as [mime|] eqn:Hown.
  - split; [|done]. revert Hown. generalize (extension uri). intros ext.
    unfold audioExtensionToMimeType. cbn [ownProperty].
    repeat (destruct (String.eqb _ ext);
            [intros [= <-]; apply (bool_decide_unpack _); by vm_compute|]).
    done.
  - case_bool_decide; [done|].
    split; [apply (bool_decide_unpack _); by vm_compute|done].
Qed.

End MimeTheorems.

(** ** Loads in flight *)
Module LoadExtras.
Import Audio AudioViews AudioFacts.

Implicit Types (w : MainThread) (a : MainAudioData) (id j : nat)
  (r : LoadResult).

Lemma visitAudioData_local w j :
  localAudioDatas (visitAudioData w j) = localAudioDatas w.
Proof.
  unfold visitAudioData. destruct (resources w !! j); [|done]. by case_decide.
Qed.

Lemma visitAudioData_initialized w j a :
  resources (visitAudioData w j) !! j = Some a → loadStatus a ≠ Uninitialized.
Proof.
  unfold visitAudioData.
  destruct (resources w !! j) as [b|] eqn:Hb; [|by rewrite Hb].
  case_decide as Hun; simpl.
  - rewrite lookup_insert_eq. by intros [= <-].
  - rewrite Hb. by intros [= <-].
Qed.

Lemma visitAudioData_noop w j :
  (∀ a, resources w !! j = Some a → loadStatus a ≠ Uninitialized) →
  visitAudioData w j = w.
Proof.
  intros H. unfold visitAudioData.
  destruct (resources w !! j) as [b|] eqn:Hb; [|done].
  case_decide as Hun; [|done]. by destruct (H b).
Qed.

Lemma visits_initialized l w id a :
  id ∈ l →
  resources (foldl visitAudioData w l) !! id = Some a →
  loadStatus a ≠ Uninitialized.
Proof.
  revert w. induction l as [|j l IH]; intros w Hin; [by apply not_elem_of_nil in Hin|].
  simpl. destruct (decide (id ∈ l)) as [Hl|Hl]; [by apply IH|].
  apply elem_of_cons in Hin as [->|?]; [|done].
  destruct (resources (visitAudioData w j) !! j) as [b|] eqn:Hb.
  - pose proof (visitAudioData_initialized _ _ _ Hb) as Hst.
    rewrite (visits_other l _ _ _ Hb Hst). by intros [= <-].
  - intros Ha Hun.
    (* a resource that is missing stays missing *)
    assert (∀ l w, resources w !! j = None →
                   resources (foldl visitAudioData w l) !! j = None) as Hmiss.
    { clear. induction l as [|k l IH]; intros w Hn; [done|]. simpl. apply IH.
      unfold visitAudioData. destruct (resources w !! k) as [b|] eqn:Hb; [|done].
      case_decide; [|done]. simpl.
      rewrite lookup_insert_ne; [done|]. intros ->. congruence. }
    rewrite (Hmiss l _ Hb) in Ha. done.
Qed.

Lemma visits_noop l w :
  (∀ id a, id ∈ l → resources w !! id = Some a → loadStatus a ≠ Uninitialized) →
  foldl visitAudioData w l = w.
Proof.
  revert w. induction l as [|j l IH]; intros w H; [done|]. simpl.
  rewrite visitAudioData_noop by (intros a; apply H; by left).
  apply IH. intros id a Hin. apply H. by right.
Qed.

Lemma visits_local l w :
  localAudioDatas (foldl visitAudioData w l) = localAudioDatas w.
Proof.
  revert w. induction l as [|j l IH]; intros w; [done|]. simpl.
  by rewrite IH, visitAudioData_local.
Qed.

(** X18. [updateAudioDatas] is idempotent: a second run right after the
    first finds no uninitialized resource among the local ones and changes
    nothing, so no resource gets a second load from it. *)
Theorem X18_updateAudioDatas_idempotent w :
  updateAudioDatas (updateAudioDatas w) = updateAudioDatas w.
Proof.
  unfold updateAudioDatas at 1. unfold updateAudioDatas at 2.
  rewrite visits_local. apply visits_noop.
  intros id a Hin. by apply visits_initialized.
Qed.

Lemma filter_agree {A} (P Q : A → Prop) `{!∀ x, Decision (P x)}
    `{!∀ x, Decision (Q x)} (l : list A) :
  Forall (λ x, P x ↔ Q x) l → filter P l = filter Q l.
Proof.
  induction 1 as [|x l Hx _ IH]; [done|].
  rewrite !filter_cons, IH.
  destruct (decide (P x)), (decide (Q x)); tauto || done.
Qed.

Lemma visits_loads_exact l w :
  NoDup l →
  loads (foldl visitAudioData w l)
  = loads w ++ filter (λ id, statusOf w id = Some Uninitialized) l.
Proof.
  intros Hnd. revert w. induction Hnd as [|j l Hj Hnd IH]; intros w; simpl.
  - by rewrite app_nil_r.
  - rewrite IH. rewrite filter_cons.
    assert (filter (λ id, statusOf (visitAudioData w j) id = Some Uninitialized) l
            = filter (λ id, statusOf w id = Some Uninitialized) l) as ->.
    { apply filter_agree. apply Forall_forall. intros id Hid.
      assert (id ≠ j) by (intros ->; done).
      unfold statusOf, visitAudioData.
      destruct (resources w !! j) as [b|]; [|done].
      case_decide; [|done]. simpl. by rewrite lookup_insert_ne. }
    unfold visitAudioData, statusOf.
    destruct (resources w !! j) as [b|] eqn:Hb; simpl.
    + destruct (decide (loadStatus b = Uninitialized)) as [Hun|Hun];
        destruct (decide (Some (loadStatus b) = Some Uninitialized)) as [H2|H2];
        simpl; try done.
      * by rewrite <- app_assoc.
      * destruct H2. by f_equal.
      * injection H2 as H2. done.
    + by destruct (decide (None = Some Uninitialized)).
Qed.

Lemma visits_start l w id :
  id ∈ l → statusOf w id = Some Uninitialized →
  statusOf (foldl visitAudioData w l) id = Some Loading.
Proof.
  revert w. induction l as [|j l IH]; intros w Hin Hun;
    [by apply not_elem_of_nil in Hin|].
  simpl. destruct (decide (j = id)) as [->|Hne].
  - unfold statusOf in Hun.
    destruct (resources w !! id) as [a|] eqn:Ha; [|done]. simpl in Hun.
    injection Hun as Hun.
    assert (resources (visitAudioData w id) !! id
            = Some (set_loadStatus
                      (set_abortController a (Some (mkAbortController false)))
                      Loading)) as Hv.
    { unfold visitAudioData. rewrite Ha, decide_True by done. simpl.
      by rewrite lookup_insert_eq. }
    unfold statusOf. by rewrite (visits_other l _ _ _ Hv).
  - apply IH.
    + apply elem_of_cons in Hin as [?|?]; [congruence|done].
    + unfold statusOf, visitAudioData in *.
      destruct (resources w !! j) as [b|]; [|done].
      case_decide; [|done]. simpl. by rewrite lookup_insert_ne.
Qed.

(** X19. One run of [updateAudioDatas] starts a load for exactly the local
    resources that are uninitialized, in the order of the local list, behind
    the loads already in flight, and leaves each of them [Loading]. *)
Theorem X19_updateAudioDatas_starts_uninitialized w :
  NoDup (localAudioDatas w) →
  loads (updateAudioDatas w)
  = loads w
    ++ filter (λ id, statusOf w id = Some Uninitialized) (localAudioDatas w)
  ∧ ∀ id, id ∈ localAudioDatas w →
      statusOf w id = Some Uninitialized →
      statusOf (updateAudioDatas w) id = Some Loading.
Proof.
  intros Hnd. split; [by apply visits_loads_exact|].
  intros id Hin Hun. by apply visits_start.
Qed.

(** X19 at work: the one resource of the created state gets its load. *)
Lemma X19_updateAudioDatas_starts_uninitialized_witness :
  loads (updateAudioDatas AudioScenario.created)
  = loads AudioScenario.created
    ++ filter (λ id, statusOf AudioScenario.created id = Some Uninitialized)
         (localAudioDatas AudioScenario.created).
Proof.
  apply (X19_updateAudioDatas_starts_uninitialized AudioScenario.created).
  apply (bool_decide_unpack _). by vm_compute.
Defined.

Lemma visitAudioData_inFlightOk w j : inFlightOk w → inFlightOk (visitAudioData w j).
Proof.
  intros [Hnd Hok]. unfold visitAudioData.
  destruct (resources w !! j) as [b|] eqn:Hb; [|done].
  case_decide as Hun; [|done]. split; simpl.
  - apply NoDup_app. split; [done|]. split; [|apply NoDup_singleton].
    intros x Hx ->%list_elem_of_singleton.
    destruct (Hok _ Hx) as (a & Ha & [Hs|Hs]); congruence.
  - intros id [Hin| ->%list_elem_of_singleton]%elem_of_app.
    + destruct (Hok _ Hin) as (a & Ha & Hs).
      destruct (decide (j = id)) as [->|Hne].
      * destruct Hs; congruence.
      * exists a. by rewrite lookup_insert_ne.
    + eexists. rewrite lookup_insert_eq. split; [done|]. by left.
Qed.

Lemma updateAudioDatas_inFlightOk w :
  inFlightOk w → inFlightOk (updateAudioDatas w).
Proof.
  unfold updateAudioDatas. generalize (localAudioDatas w) as l. intros l.
  revert w. induction l as [|j l IH]; intros w Hok; [done|].
  simpl. by apply IH, visitAudioData_inFlightOk.
Qed.

Lemma no_loads_inFlightOk w : loads w = [] → inFlightOk w.
Proof.
  intros Hl. unfold inFlightOk. rewrite Hl.
  split; [apply NoDup_nil_2|]. intros id Hin. by apply not_elem_of_nil in Hin.
Qed.

(** Replacing a resource by one of the same status, or disposing it, keeps
    the loads in flight in order. *)
Lemma replace_inFlightOk w id a a' locals :
  inFlightOk w → resources w !! id = Some a →
  (loadStatus a = Loading ∨ loadStatus a = Disposed →
   loadStatus a' = Loading ∨ loadStatus a' = Disposed) →
  inFlightOk (mkMain (<[id := a']> (resources w)) locals (loads w)).
Proof.
  intros [Hnd Hok] Ha Hst. split; [done|]. simpl. intros j Hj.
  destruct (Hok _ Hj) as (b & Hb & Hs).
  destruct (decide (id = j)) as [->|Hne].
  - exists a'. rewrite lookup_insert_eq. split; [done|].
    apply Hst. by assert (a = b) as -> by congruence.
  - exists b. by rewrite lookup_insert_ne.
Qed.

(** X20. No resource ever has two loads in flight, and a load in flight
    always belongs to a resource that is loading or was disposed while
    loading: this holds when no load is in flight and is kept by
    [updateAudioDatas], by a load settling, and by acquiring and releasing
    references. *)
Theorem X20_one_load_in_flight_per_resource w :
  inFlightOk w →
  inFlightOk (updateAudioDatas w)
  ∧ (∀ id r, inFlightOk (settle id r w))
  ∧ (∀ id, inFlightOk (release id w))
  ∧ (∀ id, inFlightOk (acquire id w)).
Proof.
  intros Hok. split; [by apply updateAudioDatas_inFlightOk|]. split; [|split].
  - intros id r. destruct Hok as [Hnd Hok]. unfold settle.
    case_decide as Hin; [|done].
    destruct (resources w !! id) as [a|] eqn:Ha; [|done]. split; simpl.
    + by apply NoDup_filter.
    + intros j [Hne Hj]%list_elem_of_filter.
      destruct (Hok _ Hj) as (b & Hb & Hs).
      exists b. by rewrite lookup_insert_ne.
  - intros id. unfold release.
    destruct (resources w !! id) as [a|] eqn:Ha; [|done].
    case_decide; apply (replace_inFlightOk w id a); try done.
    intros [Hs|Hs]; unfold dispose; simpl; rewrite Hs; simpl; auto.
  - intros id. unfold acquire.
    destruct (resources w !! id) as [a|] eqn:Ha; [|done].
    by apply (replace_inFlightOk w id a).
Qed.

(** X20 at work: no load is in flight in the created state. *)
Lemma X20_one_load_in_flight_per_resource_witness :
  inFlightOk (updateAudioDatas AudioScenario.created).
Proof.
  apply (X20_one_load_in_flight_per_resource AudioScenario.created).
  by apply no_loads_inFlightOk.
Defined.

(** X21. A load in flight that resolves never finds its resource loaded
    already, so the callback does not throw: a resource that is still
    [Loading] becomes [Loaded] with the payload as its [data], and the load
    is no longer in flight. *)
Theorem X21_resolved_load_attaches_payload w id a d :
  inFlightOk w →
  resources w !! id = Some a →
  id ∈ loads w →
  (∃ a', onResolved d a = inr a')
  ∧ (loadStatus a = Loading →
     statusOf (settle id (Resolved d) w) id = Some Loaded
     ∧ dataOf (settle id (Resolved d) w) id = Some d
     ∧ id ∉ loads (settle id (Resolved d) w)).
Proof.
  intros [Hnd Hok] Ha Hin.
  destruct (Hok _ Hin) as (b & Hb & Hs).
  assert (b = a) as -> by congruence.
  split.
  - unfold onResolved. destruct Hs as [Hs|Hs]; rewrite Hs; simpl; eauto.
  - intros Hl.
    destruct (settle_in_flight w id a (Resolved d) Ha Hin) as [Hr Hgone].
    unfold statusOf, dataOf. rewrite Hr. simpl.
    unfold onResolved. rewrite Hl. simpl. done.
Qed.

(** X21 at work: the load of resource 7 resolves to a buffer. *)
Lemma X21_resolved_load_attaches_payload_witness :
  statusOf (settle 7 (Resolved (Some (AudioBuffer 3))) AudioScenario.loadingAudio) 7
  = Some Loaded.
Proof.
  refine (proj1 (proj2 (X21_resolved_load_attaches_payload
            AudioScenario.loadingAudio 7
            (mkAudioData Loading None (Some (mkAbortController false)) 1)
            (Some (AudioBuffer 3)) _ _ _) _)).
  - by apply updateAudioDatas_inFlightOk, no_loads_inFlightOk.
  - by vm_compute.
  - apply (bool_decide_unpack _). by vm_compute.
  - reflexivity.
Defined.

End LoadExtras.

(** ** The sources of an audio emitter *)
Module EmitterExtras.
Import JS Emitters.

Implicit Types (s : MainAudioSource) (active next : list MainAudioSource)
  (fx : list AudioEffect) (em : MainAudioEmitter) (input : option AudioNodeId).

Lemma hasEid_eids x l : hasEid x l = true ↔ x ∈ eids l.
Proof.
  unfold hasEid, eids. rewrite existsb_exists, list_elem_of_fmap.
  split.
  - intros (s & Hin & Hs). exists s. apply bool_decide_eq_true in Hs.
    split; [done|]. by apply list_elem_of_In.
  - intros (s & -> & Hin). exists s. split; [by apply list_elem_of_In|].
    by apply bool_decide_eq_true.
Qed.

(** The backwards loop with [splice] is a filter. *)
Lemma dropInactive_filter j1 next input active fx :
  j1 ≤ length active →
  (dropInactive j1 next input active fx).1
  = filter (λ s, hasEid (eid s) next = true) (take j1 active) ++ drop j1 active.
Proof.
  revert active fx. induction j1 as [|j IH]; intros active fx Hj; [done|].
  simpl. destruct (lookup_lt_is_Some_2 active j Hj) as [s Hs]. rewrite Hs.
  rewrite (take_S_r _ _ _ Hs), filter_app, filter_cons, filter_nil.
  destruct (hasEid (eid s) next) eqn:Hkeep.
  - rewrite IH by lia. rewrite decide_True by done.
    rewrite (drop_S _ _ _ Hs). by rewrite <- app_assoc.
  - rewrite IH by (rewrite length_delete by eauto; lia).
    rewrite decide_False by done. rewrite app_nil_r.
    rewrite delete_take_drop.
    rewrite take_app_length', drop_app_length'; [done|..];
      by rewrite length_take_le by lia.
Qed.

Lemma dropInactive_all_kept j1 next input active fx :
  Forall (λ s, hasEid (eid s) next = true) active →
  dropInactive j1 next input active fx = (active, fx).
Proof.
  intros Hall. induction j1 as [|j IH]; [done|]. simpl.
  destruct (active !! j) as [s|] eqn:Hs; [|done].
  by rewrite (Forall_lookup_1 _ _ _ _ Hall Hs).
Qed.

Lemma connectNew_all_active next input active fx :
  Forall (λ s, hasEid (eid s) active = true) next →
  connectNew next input active fx = Normal (active, fx).
Proof.
  induction 1 as [|s next Hs _ IH]; [done|]. simpl. by rewrite Hs.
Qed.

Lemma hasEid_app x l k : hasEid x (l ++ k) = hasEid x l || hasEid x k.
Proof. unfold hasEid. apply existsb_app. Qed.

(** What the forwards loop leaves when it returns. *)
Lemma connectNew_normal next input active fx active' fx' :
  connectNew next input active fx = Normal (active', fx') →
  (∀ x, x ∈ eids active' ↔ x ∈ eids active ∨ x ∈ eids next)
  ∧ (NoDup (eids active) → NoDup (eids active'))
  ∧ Forall (λ s, hasEid (eid s) active' = true) next
  ∧ active `prefix_of` active'.
Proof.
  revert active fx. induction next as [|s next IH]; intros active fx; simpl.
  - intros [= <- <-]. split; [|done]. intros x.
    change (eids []) with (@nil nat). rewrite elem_of_nil. tauto.
  - destruct (hasEid (eid s) active) eqn:Hs.
    + intros Hrun. destruct (IH _ _ Hrun) as (Hiff & Hnd & Hall & Hpre).
      split; [|split; [done|split; [|done]]].
      * intros x. rewrite Hiff. apply hasEid_eids in Hs.
        change (eids (s :: next)) with (eid s :: eids next).
        rewrite elem_of_cons.
        split; [tauto|]. intros [?|[->|?]]; tauto.
      * constructor; [|done]. apply hasEid_eids, Hiff. left. by apply hasEid_eids.
    + destruct (gainNode s) as [g|], input as [n|]; try done.
      intros Hrun. destruct (IH _ _ Hrun) as (Hiff & Hnd & Hall & Hpre).
      split; [|split; [|split]].
      * intros x. rewrite Hiff.
        change (eids (s :: next)) with (eid s :: eids next).
        unfold eids at 1. rewrite fmap_app, elem_of_app, elem_of_cons.
        change (eid <$> [s]) with [eid s]. rewrite list_elem_of_singleton.
        fold (eids active). tauto.
      * intros Hn. apply Hnd. unfold eids. rewrite fmap_app. simpl.
        apply NoDup_app. split; [done|]. split; [|apply NoDup_singleton].
        intros x Hx ->%list_elem_of_singleton.
        apply hasEid_eids in Hx. congruence.
      * constructor; [|done]. apply hasEid_eids, Hiff. left.
        unfold eids. rewrite fmap_app. apply elem_of_app. right. by left.
      * etrans; [|done]. by apply prefix_app_r.
Qed.

Lemma filter_eids_NoDup (P : MainAudioSource → Prop) `{!∀ s, Decision (P s)} l :
  NoDup (eids l) → NoDup (eids (filter P l)).
Proof.
  unfold eids. induction l as [|s l IH]; [done|].
  rewrite fmap_cons, NoDup_cons. intros [Hs Hnd].
  rewrite filter_cons. destruct (decide (P s)); [|by apply IH].
  rewrite fmap_cons. constructor; [|by apply IH].
  intros (s' & He & Hin)%list_elem_of_fmap. apply Hs.
  apply list_elem_of_fmap. exists s'. split; [done|].
  by apply list_elem_of_filter in Hin as [_ ?].
Qed.

(** One emitter, when the update returns. *)
Lemma updateAudioEmitter_normal em em' fx :
  updateAudioEmitter em = Normal (em', fx) →
  (∀ x, x ∈ eids (activeSources em') ↔ x ∈ eids (sources em))
  ∧ (NoDup (eids (activeSources em)) → NoDup (eids (activeSources em')))
  ∧ sources em' = sources em
  ∧ output em' = output em
  ∧ inputGain em' = inputGain em
  ∧ outputGain em' = outputGain em
  ∧ destination em' = Some (nextDestination (output em))
  ∧ Forall (λ s, hasEid (eid s) (sources em) = true) (activeSources em')
  ∧ Forall (λ s, hasEid (eid s) (activeSources em') = true) (sources em).
Proof.
  unfold updateAudioEmitter.
  pose proof (dropInactive_filter (length (activeSources em)) (sources em)
                (inputGain em) (activeSources em) [] (le_n _)) as Hdrop.
  destruct (dropInactive _ _ _ _ _) as [active1 fx1]. simpl in Hdrop.
  rewrite firstn_all, drop_all, app_nil_r in Hdrop.
  destruct (connectNew _ _ active1 fx1) as [[active2 fx2]|? [? ?]] eqn:Hrun;
    [|done].
  destruct (connectNew_normal _ _ _ _ _ _ Hrun) as (Hiff & Hnd & Hall & Hpre).
  assert (∀ x, x ∈ eids active1 → x ∈ eids (sources em)) as Hsub.
  { intros x (s & -> & Hs)%list_elem_of_fmap. rewrite Hdrop in Hs.
    apply list_elem_of_filter in Hs as [Hs _]. by apply hasEid_eids. }
  assert ((∀ x, x ∈ eids active2 ↔ x ∈ eids (sources em))
          ∧ (NoDup (eids (activeSources em)) → NoDup (eids active2))
          ∧ Forall (λ s, hasEid (eid s) (sources em) = true) active2) as (H1 & H2 & H3).
  { split; [|split].
    - intros x. rewrite Hiff. split; [intros [?|?]; auto | auto].
    - intros Hn. apply Hnd. rewrite Hdrop. by apply filter_eids_NoDup.
    - apply Forall_forall. intros s Hs. apply hasEid_eids.
      assert (eid s ∈ eids active2) as Hin
        by (apply list_elem_of_fmap; by exists s).
      apply Hiff in Hin as [?|?]; auto. }
  destruct (outputGain em) as [out|]; [|done].
  case_decide as Hdest; intros [= <- <-]; simpl;
    (split; [exact H1|]); (split; [exact H2|]); by repeat (split; [done|]).
Qed.

(** X22. When [updateAudioEmitters] returns, every emitter's active sources
    are, by entity id, exactly its sources: each source is active, no active
    source is one that is not a source any more, entity ids that were
    distinct stay distinct, and the emitter's destination is the mixer input
    its output setting names. *)
Theorem X22_emitters_synchronized emitters emitters' fx :
  updateAudioEmitters emitters = Normal (emitters', fx) →
  Forall2 (λ em em',
             (∀ x, x ∈ eids (activeSources em') ↔ x ∈ eids (sources em))
             ∧ (NoDup (eids (activeSources em)) → NoDup (eids (activeSources em')))
             ∧ sources em' = sources em
             ∧ destination em' = Some (nextDestination (output em)))
          emitters emitters'.
Proof.
  revert emitters' fx. induction emitters as [|em rest IH]; intros emitters' fx; simpl.
  - intros [= <- <-]. constructor.
  - destruct (updateAudioEmitter em) as [[em1 fx1]|? [? ?]] eqn:Hem; [|done].
    destruct (updateAudioEmitters rest) as [[rest' fx']|? [? ?]] eqn:Hrest; [|done].
    intros [= <- <-]. constructor; [|by eapply IH].
    destruct (updateAudioEmitter_normal _ _ _ Hem)
      as (H1 & H2 & H3 & _ & _ & _ & H4 & _).
    done.
Qed.

(** X22 at work: one emitter whose active source 1 was dropped from its
    sources and whose source 2 is new. *)
Lemma X22_emitters_synchronized_witness :
  updateAudioEmitters [EmitterScenario.stale]
  = Normal ([EmitterScenario.synced], EmitterScenario.calls)
  ∧ Forall2 (λ em em',
               (∀ x, x ∈ eids (activeSources em') ↔ x ∈ eids (sources em))
               ∧ (NoDup (eids (activeSources em))
                  → NoDup (eids (activeSources em')))
               ∧ sources em' = sources em
               ∧ destination em' = Some (nextDestination (output em)))
      [EmitterScenario.stale] [EmitterScenario.synced].
Proof.
  split; [reflexivity|].
  apply (X22_emitters_synchronized [EmitterScenario.stale]
           [EmitterScenario.synced] EmitterScenario.calls).
  reflexivity.
Defined.

Lemma hasEid_false x l : hasEid x l = false ↔ x ∉ eids l.
Proof.
  rewrite <- hasEid_eids. symmetry. apply not_true_iff_false.
Qed.

(** The active sources that the backwards loop keeps are those of an entity
    that is still among the sources. *)
Lemma kept_eids next active x :
  x ∈ eids (filter (λ a, hasEid (eid a) next = true) active)
  ↔ x ∈ eids active ∧ x ∈ eids next.
Proof.
  unfold eids at 1 2. rewrite !list_elem_of_fmap. split.
  - intros (a & -> & [Ha Hin]%list_elem_of_filter).
    split; [by exists a|]. by apply hasEid_eids.
  - intros [(a & -> & Hin) Hnext]. exists a. split; [done|].
    apply list_elem_of_filter. split; [|done]. by apply hasEid_eids.
Qed.

(** The forwards loop returns when every source it pushes can be
    connected. *)
Lemma connectNew_returns next input active fx :
  (∀ s, s ∈ next → eid s ∉ eids active →
        is_Some (gainNode s) ∧ is_Some input) →
  ∃ active' fx', connectNew next input active fx = Normal (active', fx').
Proof.
  revert active fx. induction next as [|s next IH]; intros active fx Hgood;
    simpl; [eauto|].
  destruct (hasEid (eid s) active) eqn:Hs.
  - apply IH. intros s' Hin. apply Hgood. by right.
  - destruct (Hgood s) as [[g ->] [n ->]]; [by left|by apply hasEid_false|].
    apply IH. intros s' Hin Hnew. apply Hgood; [by right|].
    intros Hact. apply Hnew. unfold eids. rewrite fmap_app.
    apply elem_of_app. by left.
Qed.

(** The forwards loop throws when it gets to the first source of an entity
    that is not active and cannot connect it, if not before. *)
Lemma connectNew_throws pre s post input active fx :
  eid s ∉ eids active → eid s ∉ eids pre →
  gainNode s = None ∨ input = None →
  ∃ active' fx',
    connectNew (pre ++ s :: post) input active fx
    = Throw TypeError (active', fx').
Proof.
  intros Hact Hpre Hbad. revert active fx Hact.
  induction pre as [|p pre IH]; intros active fx Hact; simpl.
  - apply hasEid_false in Hact. rewrite Hact.
    destruct Hbad as [-> | ->]; [eauto|]. destruct (gainNode s); eauto.
  - change (eids (p :: pre)) with (eid p :: eids pre) in Hpre.
    apply not_elem_of_cons in Hpre as [Hne Hpre].
    destruct (hasEid (eid p) active); [by apply IH|].
    destruct (gainNode p) as [g|], input as [n|]; eauto.
    apply IH; [done|]. unfold eids. rewrite fmap_app.
    intros [?|Hin%list_elem_of_singleton]%elem_of_app; [by apply Hact|done].
Qed.

(** What a throw of the forwards loop leaves: the source it could not
    connect is the last of the active ones. *)
Lemma connectNew_thrown next input active fx e active' fx' :
  connectNew next input active fx = Throw e (active', fx') →
  e = TypeError
  ∧ ∃ s, last active' = Some s ∧ s ∈ next ∧ (eid s ∉ eids active)
         ∧ (gainNode s = None ∨ input = None).
Proof.
  revert active fx. induction next as [|s next IH]; intros active fx; simpl;
    [done|].
  destruct (hasEid (eid s) active) eqn:Hs.
  - intros Hrun. destruct (IH _ _ Hrun) as (-> & s' & Hlast & Hin & Hnew & Hbad).
    split; [done|]. exists s'. split; [done|]. split; [by right|done].
  - assert (∀ s', eid s' ∉ eids (active ++ [s]) → eid s' ∉ eids active) as Hsub.
    { intros s' Hnew Hact. apply Hnew. unfold eids. rewrite fmap_app.
      apply elem_of_app. by left. }
    assert (Throw TypeError (active ++ [s], fx) = Throw e (active', fx') →
            gainNode s = None ∨ input = None →
            e = TypeError
            ∧ ∃ s', last active' = Some s' ∧ s' ∈ s :: next
                    ∧ (eid s' ∉ eids active)
                    ∧ (gainNode s' = None ∨ input = None)) as Hhere.
    { intros Heq Hbad. simplify_eq. split; [by destruct e|]. exists s.
      split; [apply last_snoc|]. split; [by left|].
      split; [by apply hasEid_false|done]. }
    destruct (gainNode s) as [g|] eqn:Hg, input as [n|] eqn:Hn;
      [|intros H; apply Hhere; auto..].
    intros Hrun. destruct (IH _ _ Hrun) as (-> & s' & Hlast & Hin & Hnew & Hbad).
    split; [done|]. exists s'. split; [done|]. split; [by right|].
    split; [by apply Hsub|done].
Qed.

(** X23. The update of an emitter returns when the emitter has its output
    gain and every source of an entity that is not active has its gain node,
    the emitter then having its input gain. It throws a TypeError when the
    output gain is missing, and when the first source of an entity that is
    not active is without gain node or, the emitter having no input gain,
    cannot be connected. A throw leaves the sources and the destination as
    they were: either the loop over the
    sources threw, and then the source that could not be connected, one of
    an entity that was not active, is already the last of the active
    sources; or the output gain is missing, the active sources being, by
    entity id, the sources. *)
Theorem X23_emitter_update_throws_only_on_missing_nodes em :
  ((∀ s, s ∈ sources em → eid s ∉ eids (activeSources em) →
         is_Some (gainNode s) ∧ is_Some (inputGain em)) →
   is_Some (outputGain em) →
   ∃ em' fx, updateAudioEmitter em = Normal (em', fx))
  ∧ (outputGain em = None
     ∨ (∃ pre s post,
          sources em = pre ++ s :: post
          ∧ (eid s ∉ eids (activeSources em)) ∧ (eid s ∉ eids pre)
          ∧ (gainNode s = None ∨ inputGain em = None)) →
     ∃ em' fx, updateAudioEmitter em = Throw TypeError (em', fx))
  ∧ (∀ e em' fx,
       updateAudioEmitter em = Throw e (em', fx) →
       sources em' = sources em ∧ destination em' = destination em
       ∧ ((∃ s, last (activeSources em') = Some s
                ∧ s ∈ sources em ∧ (eid s ∉ eids (activeSources em))
                ∧ (gainNode s = None ∨ inputGain em = None))
          ∨ (outputGain em = None
             ∧ ∀ x, x ∈ eids (activeSources em') ↔ x ∈ eids (sources em)))).
Proof.
  unfold updateAudioEmitter.
  pose proof (dropInactive_filter (length (activeSources em)) (sources em)
                (inputGain em) (activeSources em) [] (le_n _)) as Hdrop.
  destruct (dropInactive _ _ _ _ _) as [active1 fx1]. simpl in Hdrop.
  rewrite firstn_all, drop_all, app_nil_r in Hdrop.
  assert (∀ s, s ∈ sources em → eid s ∉ eids active1 →
               eid s ∉ eids (activeSources em)) as Hnew.
  { intros s Hin Hnot Hact. apply Hnot. rewrite Hdrop. apply kept_eids.
    split; [done|]. apply list_elem_of_fmap. by exists s. }
  assert (∀ s, eid s ∉ eids (activeSources em) → eid s ∉ eids active1)
    as Hnew'.
  { intros s Hnot Hact. apply Hnot. rewrite Hdrop in Hact.
    by apply kept_eids in Hact as [? _]. }
  split; [|split].
  - intros Hgood [out Hout].
    destruct (connectNew_returns (sources em) (inputGain em) active1 fx1)
      as (active2 & fx2 & ->); [by auto|].
    rewrite Hout. case_decide; eauto.
  - intros [Hout | (pre & s & post & Hsrc & Hact & Hpre & Hbad)].
    + destruct (connectNew _ _ active1 fx1) as [[active2 fx2]|e [active2 fx2]]
        eqn:Hrun.
      * rewrite Hout. eauto.
      * apply connectNew_thrown in Hrun as [-> _]. eauto.
    + destruct (connectNew_throws pre s post (inputGain em) active1 fx1)
        as (active2 & fx2 & Hrun); [by auto|done|done|].
      rewrite <- Hsrc in Hrun. rewrite Hrun. eauto.
  - intros e em' fx.
    destruct (connectNew _ _ active1 fx1) as [[active2 fx2]|e' [active2 fx2]]
      eqn:Hrun.
    + destruct (connectNew_normal _ _ _ _ _ _ Hrun) as (Hiff & _).
      destruct (outputGain em) as [out|]; [by case_decide|].
      intros [= <- <-]. simpl. do 2 (split; [done|]). right.
      split; [done|]. intros x. rewrite Hiff, Hdrop, kept_eids. tauto.
    + intros [= <- <-]. simpl.
      apply connectNew_thrown in Hrun as (_ & s & Hlast & Hin & Hnot & Hbad).
      do 2 (split; [done|]). left. exists s. auto.
Qed.

(** X23 at work: an emitter whose active source 1 stays and whose source 2 is
    new. With the gain node of source 2 and both gains of the emitter the
    update returns; without the gain node of source 2, and likewise without
    the input gain, it throws with source 2 already pushed; without the
    output gain it throws with the active sources synchronized. *)
Lemma X23_emitter_update_throws_only_on_missing_nodes_witness :
  (∃ em' fx,
     updateAudioEmitter
       (mkEmitter [mkSource 1 (Some 10)]
          [mkSource 1 (Some 10); mkSource 2 (Some 20)]
          Voice None (Some 30) (Some 31))
     = Normal (em', fx))
  ∧ (∃ em' fx,
       updateAudioEmitter
         (mkEmitter [mkSource 1 (Some 10)]
            [mkSource 1 (Some 10); mkSource 2 None]
            Voice None (Some 30) (Some 31))
       = Throw TypeError (em', fx))
  ∧ (∃ em' fx,
       updateAudioEmitter
         (mkEmitter [mkSource 1 (Some 10)]
            [mkSource 1 (Some 10); mkSource 2 (Some 20)]
            Voice None None (Some 31))
       = Throw TypeError (em', fx))
  ∧ (∃ em' fx,
       updateAudioEmitter
         (mkEmitter [mkSource 1 (Some 10)]
            [mkSource 1 (Some 10); mkSource 2 (Some 20)]
            Voice None (Some 30) None)
       = Throw TypeError (em', fx)).
Proof.
  split; [|split; [|split]].
  - apply (proj1 (X23_emitter_update_throws_only_on_missing_nodes _)).
    + intros s Hs Hnew. simpl in *.
      apply elem_of_cons in Hs as [-> | Hs].
      * exfalso. apply Hnew. by left.
      * apply list_elem_of_singleton in Hs as ->. split; by eexists.
    + by eexists.
  - apply (proj1 (proj2 (X23_emitter_update_throws_only_on_missing_nodes _))).
    right. exists [mkSource 1 (Some 10)], (mkSource 2 None), [].
    split; [reflexivity|]. simpl.
    split; [by intros ?%list_elem_of_singleton|].
    split; [by intros ?%list_elem_of_singleton|]. by left.
  - apply (proj1 (proj2 (X23_emitter_update_throws_only_on_missing_nodes _))).
    right. exists [mkSource 1 (Some 10)], (mkSource 2 (Some 20)), [].
    split; [reflexivity|]. simpl.
    split; [by intros ?%list_elem_of_singleton|].
    split; [by intros ?%list_elem_of_singleton|]. by right.
  - apply (proj1 (proj2 (X23_emitter_update_throws_only_on_missing_nodes _))).
    by left.
Defined.

(** X24. Updating an emitter is idempotent: a second update right after one
    that returned leaves the emitter as it is, and connects or disconnects
    nothing; the one call it makes is setting the output gain's value
    again. *)
Theorem X24_emitter_update_idempotent em em' fx :
  updateAudioEmitter em = Normal (em', fx) →
  ∃ out, outputGain em = Some out
         ∧ updateAudioEmitter em' = Normal (em', [SetGainValue out]).
Proof.
  intros Hrun.
  destruct (updateAudioEmitter_normal _ _ _ Hrun)
    as (_ & _ & Hsrc & Hout & Hin & Hog & Hdest & Hkept & Hall).
  assert (∃ out, outputGain em = Some out) as [out Hout'].
  { unfold updateAudioEmitter in Hrun.
    destruct (dropInactive _ _ _ _ _) as [active1 fx1].
    destruct (connectNew _ _ active1 fx1) as [[active2 fx2]|? [? ?]]; [|done].
    destruct (outputGain em); [eauto|done]. }
  exists out. split; [done|].
  rewrite <- Hsrc in Hkept, Hall. rewrite <- Hout in Hdest.
  rewrite Hout' in Hog.
  unfold updateAudioEmitter.
  rewrite dropInactive_all_kept by done.
  rewrite connectNew_all_active by done.
  rewrite Hog. rewrite decide_True by done.
  rewrite <- Hog. by destruct em'.
Qed.

(** X24 at work: the emitter of X22, updated twice. *)
Lemma X24_emitter_update_idempotent_witness :
  ∃ out, outputGain EmitterScenario.stale = Some out
         ∧ updateAudioEmitter EmitterScenario.synced
           = Normal (EmitterScenario.synced, [SetGainValue out]).
Proof.
  apply (X24_emitter_update_idempotent EmitterScenario.stale
           EmitterScenario.synced EmitterScenario.calls).
  reflexivity.
Defined.

End EmitterExtras.

(** ** Repeated messages and the object-to-entity map *)
Module RepeatExtras.
Import JS Renderer SpliceFacts GraphFacts TableFacts AttachFacts AttachExtras.

Implicit Types (st : RenderThreadState) (e : Eid) (rid : ResourceId)
  (r : Renderable) (o : Obj).

(** X25. On a consistent table, handling the same AddRenderable message a
    second time, as happens when two callbacks enqueue it, gives the table
    the first handling gave: [renderables] and [renderableIndices] do not
    change, so no second entry appears for the entity. *)
Theorem X25_repeated_add_keeps_table st rid e info :
  indicesConsistent st →
  store st !! rid = Some info → state info ≠ Error →
  let st1 := onAddRenderable st rid e in
  let st2 := onAddRenderable st1 rid e in
  renderables st2 = renderables st1
  ∧ renderableIndices st2 = renderableIndices st1
  ∧ length (renderables st1)
    = match renderableIndices st !! e with
      | Some _ => length (renderables st)
      | None => S (length (renderables st))
      end.
Proof.
  intros Hc Hstore Hinfo st1 st2.
  assert (indicesConsistent st1) as Hc1 by (by apply onAddRenderable_consistent).
  assert (store st1 !! rid = Some info) as Hstore1.
  { unfold st1, onAddRenderable. rewrite Hstore.
    destruct info as [| o | err]; [| |done];
      (destruct (renderableIndices st !! e) as [i|]; [|done]);
      destruct (splice i 1 _ (renderables st)) as [removed arr];
      destruct removed as [|r ?]; [done| |done|]; simpl;
      by destruct (object r). }
  assert (renderableOf st1 e = Some (mkRenderable (resource info) None e rid))
    as Hnow.
  { destruct info as [| o | err]; [| |done].
    - by apply onAddRenderable_loading.
    - by apply onAddRenderable_loaded. }
  pose proof (onAddRenderable_table st1 rid e info Hc1 Hstore1 Hinfo) as Ht2.
  pose proof (onAddRenderable_table st rid e info Hc Hstore Hinfo) as Ht1.
  cbn zeta in Ht1, Ht2. fold st1 in Ht1, Ht2. fold st2 in Ht2.
  unfold renderableOf in Hnow.
  destruct (renderableIndices st1 !! e) as [i|] eqn:Hi1; [|done].
  simpl in Hnow. destruct Ht2 as [-> ->].
  split; [by apply list_insert_id|]. split; [done|].
  destruct (renderableIndices st !! e) as [j|]; destruct Ht1 as [-> _].
  - by rewrite length_insert.
  - rewrite length_app. simpl. lia.
Qed.

(** X25 at work: entity 3 asks twice for the loading resource 4. *)
Lemma X25_repeated_add_keeps_table_witness :
  renderables (onAddRenderable (onAddRenderable Scenario.start 4 3) 4 3)
  = renderables (onAddRenderable Scenario.start 4 3).
Proof.
  apply (X25_repeated_add_keeps_table Scenario.start 4 3 InfoLoading).
  - apply create_consistent.
  - by vm_compute.
  - by vm_compute.
Defined.

(** X26. [objectToEntityMap] learns of an object only when a loaded
    resource is added for an entity that has no index yet. For an entity
    that has one, whether a placeholder or an attached object, the handler
    leaves the map as it is: the new object is not entered and the replaced
    one is not taken out. A resource that is still loading never enters
    it. *)
Theorem X26_object_map_only_for_new_entities st rid e :
  (is_Some (renderableIndices st !! e) →
   objectToEntityMap (onAddRenderable st rid e) = objectToEntityMap st)
  ∧ (store st !! rid = Some InfoLoading →
     objectToEntityMap (onAddRenderable st rid e) = objectToEntityMap st)
  ∧ (∀ o, renderableIndices st !! e = None →
          store st !! rid = Some (InfoLoaded o) →
          objectToEntityMap (onAddRenderable st rid e)
          = <[o := e]> (objectToEntityMap st)).
Proof.
  assert (∀ removed s,
            objectToEntityMap (removeDisplaced removed s) = objectToEntityMap s)
    as Hrd.
  { intros [|r ?] s; [done|]. simpl. by destruct (object r). }
  split; [|split].
  - intros [i Hi]. unfold onAddRenderable. rewrite Hi.
    destruct (store st !! rid) as [[| o | err]|]; [| |done..];
      destruct (splice i 1 _ (renderables st)) as [removed arr]; cbn;
      by rewrite Hrd.
  - intros Hstore. unfold onAddRenderable. rewrite Hstore.
    destruct (renderableIndices st !! e) as [i|]; [|done].
    destruct (splice i 1 _ (renderables st)) as [removed arr]. cbn.
    by rewrite Hrd.
  - intros o Hnone Hstore. unfold onAddRenderable. by rewrite Hstore, Hnone.
Qed.

(** X26 at work: entity 1 already has an attached object. *)
Lemma X26_object_map_only_for_new_entities_witness :
  objectToEntityMap
    (onAddRenderable (onAddRenderable Scenario.start 1 1) 2 1)
  = objectToEntityMap (onAddRenderable Scenario.start 1 1).
Proof.
  refine (proj1 (X26_object_map_only_for_new_entities
                   (onAddRenderable Scenario.start 1 1) 2 1) _).
  eexists. reflexivity.
Defined.

End RepeatExtras.
